(** * Transcript reassembly and incremental-summary feed of [TranscriptProvider]

    A shallow embedding of the transcript context provider
    (the [TranscriptProvider] React component): the sequence buffer kept by
    the transcript listener, [processBufferedTranscripts], the [setTranscripts]
    updaters, and the handlers that drive the incremental summary session.

    Conventions.
    - A JavaScript [number] is a [Z]: the code only adds one, subtracts and
      compares numbers (sequence ids, millisecond clocks, chunk start times),
      and on finite numbers the sign of a difference is the order of its
      operands; [NaN] and [undefined] are [None].
    - A handler is a function from the provider state to the provider state.
      An [async] handler is cut at its [await]s: every piece between two
      suspension points is one function, since other handlers may run in
      between.
    - Calls to the summary service, [console.error] and [toast.error] are
      appended to a trace; [console.log] lines and the IndexedDB bookkeeping
      are left out. *)

From Stdlib Require Import ZArith List Bool Lia.
From Stdlib Require Import Ascii String DecimalString.
From Stdlib Require Import DecimalPos DecimalZ.
From Stdlib Require Import Sorted Permutation.
From Stdlib Require Import QArith Qround.
Import ListNotations.

Local Open Scope Z_scope.

(** ** JavaScript primitives used by the provider *)

Module JS.

(** [x || 0] on an optional number. *)
Definition or_zero (x : option Z) : Z :=
  match x with
  | Some n => n
  | None => 0
  end.

(** *** Strings *)

(** [String(n)] for an integer [n]. *)
Definition toString (n : Z) : string :=
  DecimalString.NilZero.string_of_int (Z.to_int n).

(** [s.split('-')[0]]: the part of [s] before its first dash. *)
Fixpoint split_dash_0 (s : string) : string :=
  match s with
  | EmptyString => EmptyString
  | String c r =>
      if Ascii.eqb c "-" then EmptyString else String c (split_dash_0 r)
  end.

Definition is_white_space (c : ascii) : bool :=
  let n := nat_of_ascii c in
  ((9 <=? n) && (n <=? 13))%nat || (n =? 32)%nat.

Fixpoint trim_start (s : string) : string :=
  match s with
  | String c r => if is_white_space c then trim_start r else s
  | EmptyString => EmptyString
  end.

(** The longest prefix of decimal digits. *)
Fixpoint decimal_prefix (s : string) : Decimal.uint :=
  match s with
  | String c r =>
      match c with
      | "0" => Decimal.D0 (decimal_prefix r)
      | "1" => Decimal.D1 (decimal_prefix r)
      | "2" => Decimal.D2 (decimal_prefix r)
      | "3" => Decimal.D3 (decimal_prefix r)
      | "4" => Decimal.D4 (decimal_prefix r)
      | "5" => Decimal.D5 (decimal_prefix r)
      | "6" => Decimal.D6 (decimal_prefix r)
      | "7" => Decimal.D7 (decimal_prefix r)
      | "8" => Decimal.D8 (decimal_prefix r)
      | "9" => Decimal.D9 (decimal_prefix r)
      | _ => Decimal.Nil
      end%char
  | EmptyString => Decimal.Nil
  end.

(** The longest prefix of hexadecimal digits, of either case. *)
Fixpoint hexadecimal_prefix (s : string) : Hexadecimal.uint :=
  match s with
  | String c r =>
      match c with
      | "0" => Hexadecimal.D0 (hexadecimal_prefix r)
      | "1" => Hexadecimal.D1 (hexadecimal_prefix r)
      | "2" => Hexadecimal.D2 (hexadecimal_prefix r)
      | "3" => Hexadecimal.D3 (hexadecimal_prefix r)
      | "4" => Hexadecimal.D4 (hexadecimal_prefix r)
      | "5" => Hexadecimal.D5 (hexadecimal_prefix r)
      | "6" => Hexadecimal.D6 (hexadecimal_prefix r)
      | "7" => Hexadecimal.D7 (hexadecimal_prefix r)
      | "8" => Hexadecimal.D8 (hexadecimal_prefix r)
      | "9" => Hexadecimal.D9 (hexadecimal_prefix r)
      | "a" | "A" => Hexadecimal.Da (hexadecimal_prefix r)
      | "b" | "B" => Hexadecimal.Db (hexadecimal_prefix r)
      | "c" | "C" => Hexadecimal.Dc (hexadecimal_prefix r)
      | "d" | "D" => Hexadecimal.Dd (hexadecimal_prefix r)
      | "e" | "E" => Hexadecimal.De (hexadecimal_prefix r)
      | "f" | "F" => Hexadecimal.Df (hexadecimal_prefix r)
      | _ => Hexadecimal.Nil
      end%char
  | EmptyString => Hexadecimal.Nil
  end.

(** The digits of [parseInt] once white space and sign are gone: a [0x]
    or [0X] prefix selects radix 16, anything else radix 10; no digit at
    all is [NaN]. *)
Definition parse_digits (s : string) : option Z :=
  match s with
  | String "0" (String ("x" | "X") r) =>
      match hexadecimal_prefix r with
      | Hexadecimal.Nil => None
      | d => Some (Z.of_hex_uint d)
      end
  | _ =>
      match decimal_prefix s with
      | Decimal.Nil => None
      | d => Some (Z.of_uint d)
      end
  end.

(** [parseInt(s)] without a radix argument; [None] is [NaN]. *)
Definition parseInt (s : string) : option Z :=
  match trim_start s with
  | String "-" r => option_map Z.opp (parse_digits r)
  | String "+" r => parse_digits r
  | r => parse_digits r
  end.

(** *** [Array.prototype.sort]

    The sort is stable, and [a] is placed before [b] when
    [compareFn a b < 0].  It is written as the insertion sort that keeps
    an element in front of the later elements it ties with; for the
    comparators of the provider (differences of keys) every stable sort
    returns this same array. *)
Section Sort.
Context {A : Type} (compareFn : A -> A -> Z).

Fixpoint sort_insert (x : A) (l : list A) : list A :=
  match l with
  | [] => [x]
  | y :: l' =>
      if compareFn x y <=? 0 then x :: l else y :: sort_insert x l'
  end.

Definition sort (l : list A) : list A := fold_right sort_insert [] l.
End Sort.

(** *** [Map<number, V>]

    A [Map] iterates in insertion order, so it is the list of its entries
    in that order. *)
Section Map.
Context {V : Type}.

Definition Map := list (Z * V).

Definition has (m : Map) (k : Z) : bool :=
  existsb (fun e => fst e =? k) m.

Definition get (m : Map) (k : Z) : option V :=
  option_map snd (find (fun e => fst e =? k) m).

Definition delete (m : Map) (k : Z) : Map :=
  filter (fun e => negb (fst e =? k)) m.

(** [set] keeps the position of a key that is present. *)
Definition set (m : Map) (k : Z) (v : V) : Map :=
  if has m k
  then map (fun e => if fst e =? k then (k, v) else e) m
  else m ++ [(k, v)].

Definition keys (m : Map) : list Z := map fst m.
Definition values (m : Map) : list V := map snd m.
End Map.
Arguments Map : clear implicits.

End JS.

(** ** Data model *)

(** Modelled from the spec: the type [Transcript] of [@/types], whose
    declaration is not among the sources (the Fragment of the
    specification).  The fields are the ones the provider writes, the
    optional ones as the provider treats them ([sequence_id !== undefined],
    [chunk_start_time || 0], [audio_start_time === undefined]). *)
Module Transcript.
Record t : Type := mk {
  id : string;
  text : string;
  timestamp : string;
  sequence_id : option Z;
  chunk_start_time : option Z;
  is_partial : bool;
  confidence : option Z;
  audio_start_time : option Z;
  audio_end_time : option Z;
  duration : option Z
}.
End Transcript.

(** Modelled from the spec: the type [TranscriptUpdate] of [@/types], whose
    declaration is not among the sources: the Fragment-shaped event sent by
    the speech-to-text producer, with the fields the provider reads. *)
Module TranscriptUpdate.
Record t : Type := mk {
  text : string;
  timestamp : string;
  sequence_id : Z;
  chunk_start_time : option Z;
  is_partial : bool;
  confidence : option Z;
  audio_start_time : option Z;
  audio_end_time : option Z;
  duration : option Z
}.
End TranscriptUpdate.

(** The summary returned by the backend ([summaryService.ts]). *)
Module Summary.
Inductive BlockType : Type := bullet | heading1 | heading2 | text.

Record SummaryBlock : Type := {
  id : string;
  type : BlockType;
  content : string;
  color : string
}.

Record SummarySection : Type := {
  title : string;
  blocks : list SummaryBlock
}.

Record MeetingNotes : Type := {
  notes_meeting_name : string;
  sections : list SummarySection
}.

Record SummaryResponse : Type := {
  meeting_name : option string;
  people : SummarySection;
  session_summary : SummarySection;
  critical_deadlines : SummarySection;
  key_items_decisions : SummarySection;
  immediate_action_items : SummarySection;
  next_steps : SummarySection;
  meeting_notes : MeetingNotes
}.
End Summary.

(** The [console.error] calls of the summary session, by their message. *)
Inductive ErrorSite : Type :=
| InitFailed          (* '[Summary] Init failed:' *)
| FlushFailed         (* '[Summary] Flush failed:' *)
| UpdateFailed        (* '[Summary] Failed to update incremental summary:' *)
| EndSessionFailed.   (* '[Summary] End session failed:' *)

(** What the provider does to the outside: calls of [summaryService],
    [console.error], [toast.error]. *)
Inductive Effect : Type :=
| startIncrementalSummary (meeting_id : string)
| addIncrementalSummaryChunk (meeting_id : string) (text_chunk : string)
| endIncrementalSummary (meeting_id : string)
| console_error (site : ErrorSite)
| toast_error (description : string).

(** The state of the provider: React state ([transcripts],
    [incrementalSummary]), refs, and the variables closed over by the
    transcript listener ([transcriptCounter], [transcriptBuffer],
    [lastProcessedSequence]).  [currentMeetingIdRef] stands for the ref and
    for the [currentMeetingId] state it is synchronised with. *)
Record State : Type := mkState {
  transcripts : list Transcript.t;
  incrementalSummary : option Summary.SummaryResponse;
  currentMeetingIdRef : option string;
  summaryStartedRef : bool;
  summarySessionActiveRef : bool;
  pendingChunksRef : list string;
  transcriptCounter : Z;
  transcriptBuffer : JS.Map Transcript.t;
  lastProcessedSequence : Z;
  trace : list Effect
}.

(** The provider as it is mounted. *)
Definition initial : State :=
  {| transcripts := [];
     incrementalSummary := None;
     currentMeetingIdRef := None;
     summaryStartedRef := false;
     summarySessionActiveRef := false;
     pendingChunksRef := [];
     transcriptCounter := 0;
     transcriptBuffer := [];
     lastProcessedSequence := 0;
     trace := [] |}.

Definition setTranscripts (updater : list Transcript.t -> list Transcript.t)
    (s : State) : State :=
  mkState (updater (transcripts s)) (incrementalSummary s)
    (currentMeetingIdRef s) (summaryStartedRef s) (summarySessionActiveRef s)
    (pendingChunksRef s) (transcriptCounter s) (transcriptBuffer s)
    (lastProcessedSequence s) (trace s).

Definition setIncrementalSummary (v : option Summary.SummaryResponse)
    (s : State) : State :=
  mkState (transcripts s) v
    (currentMeetingIdRef s) (summaryStartedRef s) (summarySessionActiveRef s)
    (pendingChunksRef s) (transcriptCounter s) (transcriptBuffer s)
    (lastProcessedSequence s) (trace s).

Definition setCurrentMeetingId (v : option string) (s : State) : State :=
  mkState (transcripts s) (incrementalSummary s)
    v (summaryStartedRef s) (summarySessionActiveRef s)
    (pendingChunksRef s) (transcriptCounter s) (transcriptBuffer s)
    (lastProcessedSequence s) (trace s).

Definition set_summaryStartedRef (v : bool) (s : State) : State :=
  mkState (transcripts s) (incrementalSummary s)
    (currentMeetingIdRef s) v (summarySessionActiveRef s)
    (pendingChunksRef s) (transcriptCounter s) (transcriptBuffer s)
    (lastProcessedSequence s) (trace s).

Definition set_summarySessionActiveRef (v : bool) (s : State) : State :=
  mkState (transcripts s) (incrementalSummary s)
    (currentMeetingIdRef s) (summaryStartedRef s) v
    (pendingChunksRef s) (transcriptCounter s) (transcriptBuffer s)
    (lastProcessedSequence s) (trace s).

Definition set_pendingChunksRef (v : list string) (s : State) : State :=
  mkState (transcripts s) (incrementalSummary s)
    (currentMeetingIdRef s) (summaryStartedRef s) (summarySessionActiveRef s)
    v (transcriptCounter s) (transcriptBuffer s)
    (lastProcessedSequence s) (trace s).

Definition set_listener (counter : Z) (buffer : JS.Map Transcript.t)
    (last : Z) (s : State) : State :=
  mkState (transcripts s) (incrementalSummary s)
    (currentMeetingIdRef s) (summaryStartedRef s) (summarySessionActiveRef s)
    (pendingChunksRef s) counter buffer last (trace s).

Definition emit (e : Effect) (s : State) : State :=
  mkState (transcripts s) (incrementalSummary s)
    (currentMeetingIdRef s) (summaryStartedRef s) (summarySessionActiveRef s)
    (pendingChunksRef s) (transcriptCounter s) (transcriptBuffer s)
    (lastProcessedSequence s) (trace s ++ [e]).

(** ** The sequence buffer and [processBufferedTranscripts] *)

Definition staleThreshold : Z := 100.
Definition recentThreshold : Z := 0.

(** The comparator of [sortTranscripts] and of the merge:
    [chunk_start_time] first, [sequence_id] on a tie. *)
Definition compareTranscripts (a b : Transcript.t) : Z :=
  let chunkTimeDiff :=
    JS.or_zero (Transcript.chunk_start_time a)
    - JS.or_zero (Transcript.chunk_start_time b) in
  if negb (chunkTimeDiff =? 0) then chunkTimeDiff
  else JS.or_zero (Transcript.sequence_id a)
       - JS.or_zero (Transcript.sequence_id b).

Definition sortTranscripts (l : list Transcript.t) : list Transcript.t :=
  JS.sort compareTranscripts l.

(** [now - parseInt(transcript.id.split('-')[0])]. *)
Definition transcriptAge (now : Z) (transcript : Transcript.t) : option Z :=
  option_map (fun created => now - created)
    (JS.parseInt (JS.split_dash_0 (Transcript.id transcript))).

(** The [while (transcriptBuffer.has(nextSequence))] loop.  Every turn
    deletes an entry, so the size of the buffer bounds the number of turns
    ([sequential_run_complete] below). *)
Fixpoint sequential_run (turns : nat) (sortedTranscripts : list Transcript.t)
    (buffer : JS.Map Transcript.t) (last : Z)
    : list Transcript.t * JS.Map Transcript.t * Z :=
  match turns with
  | O => (sortedTranscripts, buffer, last)
  | S turns' =>
      let nextSequence := last + 1 in
      match JS.get buffer nextSequence with
      | Some bufferedTranscript =>
          sequential_run turns' (sortedTranscripts ++ [bufferedTranscript])
            (JS.delete buffer nextSequence) nextSequence
      | None => (sortedTranscripts, buffer, last)
      end
  end.

(** What one call of [processBufferedTranscripts] takes out of the buffer. *)
Record Flushed : Type := mkFlushed {
  sequential : list Transcript.t;          (* sortedTranscripts *)
  staleTranscripts : list Transcript.t;
  recentTranscripts : list Transcript.t;
  forceFlushTranscripts : list Transcript.t;
  remaining : JS.Map Transcript.t;
  lastProcessed : Z
}.

(** The body of [for (const [sequenceId, transcript] of
    transcriptBuffer.entries())].  The loop deletes nothing but the entry it
    is at and adds nothing, so it visits the entries present when it
    starts. *)
Definition classify (forceFlush : bool) (now : Z) (f : Flushed)
    (entry : Z * Transcript.t) : Flushed :=
  let (sequenceId, transcript) := entry in
  if forceFlush then
    mkFlushed (sequential f) (staleTranscripts f) (recentTranscripts f)
      (forceFlushTranscripts f ++ [transcript])
      (JS.delete (remaining f) sequenceId) (lastProcessed f)
  else
    match transcriptAge now transcript with
    | Some age =>
        if age >? staleThreshold then
          mkFlushed (sequential f) (staleTranscripts f ++ [transcript])
            (recentTranscripts f) (forceFlushTranscripts f)
            (JS.delete (remaining f) sequenceId) (lastProcessed f)
        else if age >=? recentThreshold then
          mkFlushed (sequential f) (staleTranscripts f)
            (recentTranscripts f ++ [transcript]) (forceFlushTranscripts f)
            (JS.delete (remaining f) sequenceId) (lastProcessed f)
        else f
    | None => f
    end.

Definition flush (forceFlush : bool) (now : Z)
    (buffer : JS.Map Transcript.t) (last : Z) : Flushed :=
  let '(sortedTranscripts, buffer', last') :=
    sequential_run (List.length buffer) [] buffer last in
  fold_left (classify forceFlush now) buffer'
    (mkFlushed sortedTranscripts [] [] [] buffer' last').

Definition allNewTranscripts (f : Flushed) : list Transcript.t :=
  sequential f
  ++ sortTranscripts (recentTranscripts f)
  ++ sortTranscripts (staleTranscripts f)
  ++ sortTranscripts (forceFlushTranscripts f).

(** ** The merge into the transcript list *)

(** [prev.map(t => t.sequence_id).filter(id => id !== undefined)]. *)
Definition existingSequenceIds (prev : list Transcript.t) : list Z :=
  flat_map (fun t => match Transcript.sequence_id t with
                     | Some i => [i]
                     | None => []
                     end) prev.

Definition isNew (existing : list Z) (transcript : Transcript.t) : bool :=
  match Transcript.sequence_id transcript with
  | Some i => negb (existsb (Z.eqb i) existing)
  | None => false
  end.

(** The updater passed to [setTranscripts] by [processBufferedTranscripts]. *)
Definition merge (batch prev : list Transcript.t) : list Transcript.t :=
  let uniqueNewTranscripts := filter (isNew (existingSequenceIds prev)) batch in
  match uniqueNewTranscripts with
  | [] => prev
  | _ :: _ => JS.sort compareTranscripts (prev ++ uniqueNewTranscripts)
  end.

(** ** The summary session *)

(** [if (id)] on a meeting id: [null] and the empty string are falsy. *)
Definition truthy (meetingId : option string) : option string :=
  match meetingId with
  | Some EmptyString => None
  | other => other
  end.

Definition updateIncrementalSummary (summary : Summary.SummaryResponse)
    (s : State) : State :=
  setIncrementalSummary (Some summary) s.

(** "SEND NEW CHUNK TO SUMMARY SERVICE" in [processBufferedTranscripts]. *)
Definition sendChunk (textChunk : string) (s : State) : State :=
  match truthy (currentMeetingIdRef s) with
  | Some activeMeetingId =>
      if negb (summarySessionActiveRef s) then
        set_pendingChunksRef (pendingChunksRef s ++ [textChunk]) s
      else
        emit (addIncrementalSummaryChunk activeMeetingId textChunk) s
  | None => s
  end.

(** [processBufferedTranscripts(forceFlush)], run when [Date.now()] is
    [now]. *)
Definition processBufferedTranscripts (forceFlush : bool) (now : Z)
    (s : State) : State :=
  let f := flush forceFlush now (transcriptBuffer s) (lastProcessedSequence s) in
  let s1 := set_listener (transcriptCounter s) (remaining f) (lastProcessed f) s in
  match allNewTranscripts f with
  | [] => s1
  | batch =>
      sendChunk (String.concat " " (map Transcript.text batch))
        (setTranscripts (merge batch) s1)
  end.

(** [finalFlushRef.current], called by [flushBuffer]. *)
Definition flushBuffer (now : Z) (s : State) : State :=
  processBufferedTranscripts true now s.

(** The listener given to [transcriptService.onTranscriptUpdate].  The
    10 ms timer it (re)arms is the later call
    [processBufferedTranscripts false]. *)
Definition onTranscriptUpdate (now : Z) (update : TranscriptUpdate.t)
    (s : State) : State :=
  if JS.has (transcriptBuffer s) (TranscriptUpdate.sequence_id update) then s
  else
    let newTranscript :=
      Transcript.mk
        (JS.toString now ++ "-" ++ JS.toString (transcriptCounter s))%string
        (TranscriptUpdate.text update)
        (TranscriptUpdate.timestamp update)
        (Some (TranscriptUpdate.sequence_id update))
        (TranscriptUpdate.chunk_start_time update)
        (TranscriptUpdate.is_partial update)
        (TranscriptUpdate.confidence update)
        (TranscriptUpdate.audio_start_time update)
        (TranscriptUpdate.audio_end_time update)
        (TranscriptUpdate.duration update) in
    set_listener (transcriptCounter s + 1)
      (JS.set (transcriptBuffer s) (TranscriptUpdate.sequence_id update)
         newTranscript)
      (lastProcessedSequence s) s.

(** Delivery of a list of producer events, each at its own clock value. *)
Definition deliver (arrivals : list (Z * TranscriptUpdate.t)) (s : State)
    : State :=
  fold_left (fun st a => onTranscriptUpdate (fst a) (snd a) st) arrivals s.

(** What happens to the listener: a producer event, the debounce timer
    firing, or the final flush asked through [flushBuffer]. *)
Inductive ListenerEvent : Type :=
| Arrival (now : Z) (update : TranscriptUpdate.t)
| TimerFired (now : Z)
| FinalFlush (now : Z).

Definition handle (s : State) (e : ListenerEvent) : State :=
  match e with
  | Arrival now update => onTranscriptUpdate now update s
  | TimerFired now => processBufferedTranscripts false now s
  | FinalFlush now => flushBuffer now s
  end.

Definition run (events : list ListenerEvent) (s : State) : State :=
  fold_left handle events s.

(** *** The recording-started handler, cut at its [await]s *)

(** Up to the first [await]: the guard, the new meeting id
    [`meeting-${timestamp}`], the started flag.  [None] when the guard
    returns. *)
Definition onRecordingStarted (timestamp : Z) (s : State)
    : option string * State :=
  if summaryStartedRef s then (None, s)
  else
    let meetingId := ("meeting-" ++ JS.toString timestamp)%string in
    (Some meetingId,
     set_summaryStartedRef true (setCurrentMeetingId (Some meetingId) s)).

(** After the meeting metadata is saved: "START INCREMENTAL SUMMARY
    SESSION". *)
Definition startSession (s : State) : State :=
  set_pendingChunksRef [] (set_summarySessionActiveRef false s).

(** After [configService.getModelConfig()]: the call to [/start]. *)
Definition callStart (meetingId : string) (s : State) : State :=
  emit (startIncrementalSummary meetingId) s.

(** The [/start] response is [ok]. *)
Definition startConfirmed (meetingId : string) (s : State) : State :=
  let s1 := set_summarySessionActiveRef true s in
  match pendingChunksRef s1 with
  | [] => s1
  | _ :: _ =>
      let backlog := String.concat " " (pendingChunksRef s1) in
      emit (addIncrementalSummaryChunk meetingId backlog)
        (set_pendingChunksRef [] s1)
  end.

(** The [/start] response is not [ok], or the call throws: the [catch]. *)
Definition startFailed (message : string) (s : State) : State :=
  emit (toast_error message) (emit (console_error InitFailed) s).

(** The recording-started handler up to the [await] of [/start], when the
    IndexedDB calls succeed and no other handler runs in between. *)
Definition beginMeeting (timestamp : Z) (s : State) : State :=
  match onRecordingStarted timestamp s with
  | (Some meetingId, s') => callStart meetingId (startSession s')
  | (None, s') => s'
  end.

(** *** Settling of an [addIncrementalSummaryChunk] call *)

(** The [then] callback of a call made for [meeting_id]; the callback does
    not read the meeting id. *)
Definition chunkFulfilled (meeting_id : string)
    (summary : Summary.SummaryResponse) (s : State) : State :=
  updateIncrementalSummary summary s.

(** The [catch] callback, of a chunk ([UpdateFailed]) or of the backlog
    ([FlushFailed]). *)
Definition chunkRejected (site : ErrorSite) (s : State) : State :=
  emit (console_error site) s.

(** *** The recording-stopped handler *)

(** Up to the [await] of [/end]; [None] when there is no meeting id. *)
Definition onRecordingStopped (s : State) : option string * State :=
  match truthy (currentMeetingIdRef s) with
  | Some meetingId => (Some meetingId, emit (endIncrementalSummary meetingId) s)
  | None => (None, s)
  end.

(** The [/end] call has settled: [ok] is [false] when the response is not
    [ok] or the call threw, which the inner [catch] logs. *)
Definition endSettled (ok : bool) (s : State) : State :=
  if ok then s else emit (console_error EndSessionFailed) s.

(** The recording-stopped handler with the outcome of [/end]. *)
Definition stopRecording (ok : bool) (s : State) : State :=
  match onRecordingStopped s with
  | (Some _, s') => endSettled ok s'
  | (None, s') => s'
  end.

(** *** Operations exposed by the context *)

Definition clearTranscripts (s : State) : State :=
  set_summaryStartedRef false
    (setIncrementalSummary None (setTranscripts (fun _ => []) s)).

(** [markMeetingAsSaved], once [indexedDBService.markMeetingSaved] is done. *)
Definition markMeetingAsSaved (s : State) : State :=
  setCurrentMeetingId None s.

Definition compareSequence (a b : Transcript.t) : Z :=
  JS.or_zero (Transcript.sequence_id a) - JS.or_zero (Transcript.sequence_id b).

Definition sameTextAndTimestamp (update : TranscriptUpdate.t)
    (t : Transcript.t) : bool :=
  String.eqb (Transcript.text t) (TranscriptUpdate.text update)
  && String.eqb (Transcript.timestamp t) (TranscriptUpdate.timestamp update).

(** [addTranscript(update)], run when [Date.now()] is [now]. *)
Definition addTranscript (now : Z) (update : TranscriptUpdate.t)
    (s : State) : State :=
  let sequence_id := TranscriptUpdate.sequence_id update in
  let newTranscript :=
    Transcript.mk
      (if negb (sequence_id =? 0) then JS.toString sequence_id
       else JS.toString now)
      (TranscriptUpdate.text update)
      (TranscriptUpdate.timestamp update)
      (Some (JS.or_zero (Some sequence_id)))
      (TranscriptUpdate.chunk_start_time update)
      (TranscriptUpdate.is_partial update)
      (TranscriptUpdate.confidence update)
      (TranscriptUpdate.audio_start_time update)
      (TranscriptUpdate.audio_end_time update)
      (TranscriptUpdate.duration update) in
  setTranscripts
    (fun prev =>
       if existsb (sameTextAndTimestamp update) prev then prev
       else JS.sort compareSequence (prev ++ [newTranscript]))
    s.

(** ** The invariant of the transcript list *)

Definition sortKey (t : Transcript.t) : Z * Z :=
  (JS.or_zero (Transcript.chunk_start_time t),
   JS.or_zero (Transcript.sequence_id t)).

(** Lexicographic order on (chunk start time, sequence id). *)
Definition key_lt (a b : Z * Z) : Prop :=
  fst a < fst b \/ (fst a = fst b /\ snd a < snd b).

Definition key_le (a b : Z * Z) : Prop :=
  fst a < fst b \/ (fst a = fst b /\ snd a <= snd b).

Definition before (a b : Transcript.t) : Prop := key_le (sortKey a) (sortKey b).
Definition strictly_before (a b : Transcript.t) : Prop :=
  key_lt (sortKey a) (sortKey b).

(** Sorted by (chunk start time, sequence id), no sequence id twice. *)
Definition TranscriptListOk (l : list Transcript.t) : Prop :=
  StronglySorted before l /\ NoDup (map Transcript.sequence_id l).

(** The buffer as the listener builds it: a key once, and every fragment
    under its own sequence id. *)
Definition BufferOk (buffer : JS.Map Transcript.t) : Prop :=
  NoDup (JS.keys buffer)
  /\ Forall (fun e => Transcript.sequence_id (snd e) = Some (fst e)) buffer.

(** ** Derived notions used in the statements *)

(** The arrival time of a buffered fragment, as [processBufferedTranscripts]
    reads it back from the id. *)
Definition arrivalTime (t : Transcript.t) : option Z :=
  JS.parseInt (JS.split_dash_0 (Transcript.id t)).

(** The three outcomes of the age test for a fragment left in the buffer;
    a comparison with [NaN] is false. *)
Definition isStale (now : Z) (t : Transcript.t) : bool :=
  match transcriptAge now t with
  | Some age => age >? staleThreshold
  | None => false
  end.

Definition isRecent (now : Z) (t : Transcript.t) : bool :=
  match transcriptAge now t with
  | Some age => negb (age >? staleThreshold) && (age >=? recentThreshold)
  | None => false
  end.

(** The fragment is taken out of the buffer by the classification loop. *)
Definition isTaken (forceFlush : bool) (now : Z) (t : Transcript.t) : bool :=
  forceFlush || isStale now t || isRecent now t.

(** The phase of the summary session read off the two flags of the
    provider.  The code keeps no flag for a phase between the stop signal
    and the settling of [/end]. *)
Inductive Phase : Type := Inactive | Starting | Active.

Definition phase (s : State) : Phase :=
  if summaryStartedRef s then
    if summarySessionActiveRef s then Active else Starting
  else Inactive.

Definition sequence_le (a b : Transcript.t) : Prop :=
  JS.or_zero (Transcript.sequence_id a) <= JS.or_zero (Transcript.sequence_id b).

(** Chunks handed to the summary session one after the other. *)
Definition sendChunks (chunks : list string) (s : State) : State :=
  fold_left (fun st c => sendChunk c st) chunks s.

(** The key of [e] was deleted while the classification loop went through
    the entries [es]. *)
Definition deletedBy (forceFlush : bool) (now : Z)
    (es : JS.Map Transcript.t) (e : Z * Transcript.t) : bool :=
  existsb (fun e' => (fst e' =? fst e) && isTaken forceFlush now (snd e')) es.

(** The entries still in the buffer when the sequential run is over. *)
Definition afterRun (buffer : JS.Map Transcript.t) (last : Z)
    : JS.Map Transcript.t :=
  snd (fst (sequential_run (List.length buffer) [] buffer last)).

Definition arrivedIds (events : list ListenerEvent) : list Z :=
  flat_map (fun e => match e with
                     | Arrival _ update => [TranscriptUpdate.sequence_id update]
                     | _ => []
                     end) events.

(** Every sequence id seen so far is in the list or in the buffer, and the
    list and the buffer are well formed. *)
Definition Reassembled (ids : list Z) (s : State) : Prop :=
  BufferOk (transcriptBuffer s)
  /\ TranscriptListOk (transcripts s)
  /\ Forall (fun t => Transcript.sequence_id t <> None) (transcripts s)
  /\ forall i, In i ids <->
               In (Some i) (map Transcript.sequence_id (transcripts s))
               \/ In i (JS.keys (transcriptBuffer s)).

(** ** Sample inputs *)

Definition sampleUpdate (sequence_id : Z) (text : string)
    (chunk_start_time : Z) : TranscriptUpdate.t :=
  TranscriptUpdate.mk text "10:00:00" sequence_id (Some chunk_start_time)
    false None None None None.

(** Fragment 5 arrives alone at clock 1000. *)
Definition onlyFive : State :=
  onTranscriptUpdate 1000 (sampleUpdate 5 "five" 40) initial.

(** Fragments 3, 1, 2 arrive in that order. *)
Definition threeOneTwo : State :=
  deliver [(1000, sampleUpdate 3 "c" 30); (1001, sampleUpdate 1 "a" 10);
           (1002, sampleUpdate 2 "b" 20)] initial.

(** Fragment 5 has been flushed into the transcript list. *)
Definition fiveListed : State := processBufferedTranscripts false 1010 onlyFive.

Definition emptySection (title : string) : Summary.SummarySection :=
  {| Summary.title := title; Summary.blocks := [] |}.

Definition sampleSummary : Summary.SummaryResponse :=
  {| Summary.meeting_name := Some "Weekly sync"%string;
     Summary.people := emptySection "People";
     Summary.session_summary :=
       {| Summary.title := "Session Summary";
          Summary.blocks :=
            [ {| Summary.id := "b1"; Summary.type := Summary.bullet;
                 Summary.content := "a b c"; Summary.color := "default" |} ] |};
     Summary.critical_deadlines := emptySection "Critical Deadlines";
     Summary.key_items_decisions := emptySection "Key Items & Decisions";
     Summary.immediate_action_items := emptySection "Immediate Action Items";
     Summary.next_steps := emptySection "Next Steps";
     Summary.meeting_notes :=
       {| Summary.notes_meeting_name := "Weekly sync";
          Summary.sections := [] |} |}.

Definition threeArrivals : list (Z * TranscriptUpdate.t) :=
  [(1100, sampleUpdate 3 "c" 30); (1101, sampleUpdate 1 "a" 10);
   (1102, sampleUpdate 2 "b" 20)].

(** A first meeting starts at clock 1000; [/start] has not answered yet. *)
Definition meeting1Starting : State := beginMeeting 1000 initial.

(** [/start] is confirmed, three fragments arrive and are flushed: the chunk
    ["a b c"] is sent for ["meeting-1000"]. *)
Definition meeting1Flushed : State :=
  processBufferedTranscripts false 1110
    (deliver threeArrivals (startConfirmed "meeting-1000" meeting1Starting)).

(** The recording stops and [/end] succeeds. *)
Definition meeting1Stopped : State := stopRecording true meeting1Flushed.

(** The user starts a second recording at clock 2000. *)
Definition meeting2Active : State :=
  startConfirmed "meeting-2000"
    (beginMeeting 2000 (clearTranscripts meeting1Stopped)).

(** [/start] fails for the first meeting; the three fragments are flushed
    into the backlog. *)
Definition meeting1Backlog : State :=
  processBufferedTranscripts false 1110
    (deliver threeArrivals
       (startFailed "Failed to start summary session" meeting1Starting)).

(** ** The provider as a whole *)

(** Everything that can happen to the provider: the listener events, the
    pieces of the recording handlers (each piece runs when the [await]
    before it resolves), the settling of a chunk call, and the operations
    of the context. *)
Inductive ProviderEvent : Type :=
| Listener (e : ListenerEvent)
| RecordingStarted (timestamp : Z)
| SessionReset
| StartCalled (meetingId : string)
| StartConfirmed (meetingId : string)
| StartFailed (message : string)
| ChunkFulfilled (meeting_id : string) (summary : Summary.SummaryResponse)
| ChunkRejected (site : ErrorSite)
| RecordingStopped
| EndSettled (ok : bool)
| ClearTranscripts
| MeetingSaved
| TranscriptAdded (now : Z) (update : TranscriptUpdate.t).

Definition step (s : State) (e : ProviderEvent) : State :=
  match e with
  | Listener e => handle s e
  | RecordingStarted timestamp => snd (onRecordingStarted timestamp s)
  | SessionReset => startSession s
  | StartCalled meetingId => callStart meetingId s
  | StartConfirmed meetingId => startConfirmed meetingId s
  | StartFailed message => startFailed message s
  | ChunkFulfilled meeting_id summary => chunkFulfilled meeting_id summary s
  | ChunkRejected site => chunkRejected site s
  | RecordingStopped => snd (onRecordingStopped s)
  | EndSettled ok => endSettled ok s
  | ClearTranscripts => clearTranscripts s
  | MeetingSaved => markMeetingAsSaved s
  | TranscriptAdded now update => addTranscript now update s
  end.

Definition runProvider (events : list ProviderEvent) (s : State) : State :=
  fold_left step events s.

Definition isClear (e : ProviderEvent) : bool :=
  match e with
  | ClearTranscripts => true
  | _ => false
  end.

(** ** [copyTranscript] *)

(** [s.padStart(targetLength, c)] for a pad string of one character. *)
Definition padStart (targetLength : nat) (c : ascii) (s : string) : string :=
  (string_of_list_ascii (repeat c (targetLength - String.length s)) ++ s)%string.

(** [formatTime] of [copyTranscript]: the start time in seconds, a
    fraction in general, as [[MM:SS]].  The code computes on
    double-precision numbers; the model computes on exact rationals and
    integers and writes every digit, which is what the code does for the
    start times below [2 ^ 53]: there [Math.floor] and [%] are exact,
    [Math.floor(totalSecs / 60)] is the whole quotient (the rounding of
    the division is too small to reach the next integer), and [toString]
    writes an integer in full (it turns to the exponent notation from
    [1e21]). *)
Definition formatTime (seconds : option Q) : string :=
  match seconds with
  | None => "[--:--]"%string
  | Some seconds =>
      let totalSecs := Qfloor seconds in
      let mins := totalSecs / 60 in
      let secs := Z.rem totalSecs 60 in
      ("[" ++ padStart 2 "0" (JS.toString mins) ++ ":"
           ++ padStart 2 "0" (JS.toString secs) ++ "]")%string
  end.

(** The padded number has two characters and reads back as [n]. *)
Definition twoDigits (n : Z) : bool :=
  (String.length (padStart 2 "0" (JS.toString n)) =? 2)%nat
  && match JS.parseInt (padStart 2 "0" (JS.toString n)) with
     | Some m => m =? n
     | None => false
     end.

(** ** [useTemplates] *)

Module Template.
Record t : Type := mk {
  id : string;
  name : string;
  description : string
}.
End Template.

(** The own properties of [TEMPLATE_TRANSLATIONS]: template id, then name
    and description. *)
Definition TEMPLATE_TRANSLATIONS : list (string * (string * string)) :=
  [ ("standard_meeting",
     ("标准会议纪要",
      "适用于一般会议的通用模板，侧重于关键结果和行动项。"));
    ("daily_standup",
     ("每日站会",
      "为工程和产品团队设计的简洁模板，涵盖昨日进展、今日计划和阻碍因素。"));
    ("project_sync",
     ("项目同步",
      "侧重于项目进度、里程碑和跨团队协作的模板。"));
    ("retrospective",
     ("回顾会议",
      "用于团队总结经验教训、分析优缺点并制定改进计划。"));
    ("sales_marketing_client_call",
     ("销售与客户通话",
      "侧重于客户需求、痛点和后续销售机会的模板。"));
    ("psychatric_session",
     ("访谈/会谈",
      "适用于一对一会谈或深度访谈的详细记录模板。")) ]%string.

(** The names every object inherits from [Object.prototype]: looked up in
    [TEMPLATE_TRANSLATIONS] they give a built-in, not a translation. *)
Definition inheritedPropertyNames : list string :=
  [ "constructor"; "hasOwnProperty"; "isPrototypeOf"; "propertyIsEnumerable";
    "toLocaleString"; "toString"; "valueOf"; "__proto__";
    "__defineGetter__"; "__defineSetter__"; "__lookupGetter__";
    "__lookupSetter__" ]%string.

Definition isTemplateId (id : string) : bool :=
  negb (existsb (String.eqb id) inheritedPropertyNames).

(** [TEMPLATE_TRANSLATIONS[id]], for an id that is not an inherited
    property name. *)
Fixpoint translationOf (table : list (string * (string * string)))
    (id : string) : option (string * string) :=
  match table with
  | [] => None
  | (key, translation) :: table' =>
      if String.eqb key id then Some translation else translationOf table' id
  end.

(** The body of [templates.map(...)] in [fetchTemplates]. *)
Definition translateTemplate (template : Template.t) : Template.t :=
  match translationOf TEMPLATE_TRANSLATIONS (Template.id template) with
  | Some (name, description) =>
      Template.mk (Template.id template) name description
  | None => template
  end.

Definition translatedTemplates (templates : list Template.t)
    : list Template.t :=
  map translateTemplate templates.

(** ** [IncrementalSummaryPanel] *)

Module Panel.

(** [c.toUpperCase()] for a character of an ASCII key. *)
Definition toUpperCase (c : ascii) : ascii :=
  let n := nat_of_ascii c in
  if ((97 <=? n) && (n <=? 122))%nat then ascii_of_nat (n - 32) else c.

(** [s.split(sep)] for a separator of one character. *)
Fixpoint split (sep : ascii) (s : string) : list string :=
  match s with
  | EmptyString => [EmptyString]
  | String c r =>
      if Ascii.eqb c sep then EmptyString :: split sep r
      else
        match split sep r with
        | word :: words => String c word :: words
        | [] => [String c EmptyString]
        end
  end.

(** [word.charAt(0).toUpperCase() + word.slice(1)]. *)
Definition capitalise (word : string) : string :=
  match word with
  | EmptyString => EmptyString
  | String c r => String (toUpperCase c) r
  end.

Definition pascalKey (key : string) : string :=
  String.concat "" (map capitalise (split "_" key)).

(** The summary as the panel reads it: [sectionAt key] is [summary[key]]
    when it holds a section, [stringAt key] when it holds a string that is
    not empty; [None] when the property is absent, null or empty. *)
Record SummaryObject : Type := {
  sectionAt : string -> option Summary.SummarySection;
  stringAt : string -> option string
}.

Definition nonEmpty (s : option string) : option string :=
  match s with
  | Some EmptyString => None
  | other => other
  end.

(** A response under its field names. *)
Definition byFieldName (r : Summary.SummaryResponse) : SummaryObject :=
  {| sectionAt key :=
       if String.eqb key "people" then Some (Summary.people r)
       else if String.eqb key "session_summary"
       then Some (Summary.session_summary r)
       else if String.eqb key "critical_deadlines"
       then Some (Summary.critical_deadlines r)
       else if String.eqb key "key_items_decisions"
       then Some (Summary.key_items_decisions r)
       else if String.eqb key "immediate_action_items"
       then Some (Summary.immediate_action_items r)
       else if String.eqb key "next_steps" then Some (Summary.next_steps r)
       else None;
     stringAt key :=
       if String.eqb key "meeting_name"
       then nonEmpty (Summary.meeting_name r)
       else None |}.

(** The same response under the PascalCase aliases of the backend. *)
Definition byAlias (r : Summary.SummaryResponse) : SummaryObject :=
  {| sectionAt key :=
       if String.eqb key "People" then Some (Summary.people r)
       else if String.eqb key "SessionSummary"
       then Some (Summary.session_summary r)
       else if String.eqb key "CriticalDeadlines"
       then Some (Summary.critical_deadlines r)
       else if String.eqb key "KeyItemsDecisions"
       then Some (Summary.key_items_decisions r)
       else if String.eqb key "ImmediateActionItems"
       then Some (Summary.immediate_action_items r)
       else if String.eqb key "NextSteps" then Some (Summary.next_steps r)
       else None;
     stringAt key :=
       if String.eqb key "MeetingName"
       then nonEmpty (Summary.meeting_name r)
       else None |}.

Definition getSection (summary : option SummaryObject) (key : string)
    : option Summary.SummarySection :=
  match summary with
  | None => None
  | Some o =>
      match sectionAt o key with
      | Some section => Some section
      | None => sectionAt o (pascalKey key)
      end
  end.

Inductive CardType : Type := bullet | action | default.

Record Card : Type := mkCard {
  title : string;
  type : CardType;
  contents : list string
}.

(** What the panel shows. *)
Inductive View : Type :=
| Waiting                                    (* 'Live summary will appear here...' *)
| Generating                                 (* 'Summary is generating...' *)
| Shown (heading : string) (cards : list Card).

(** [SectionCard]: [None] is the [null] it returns. *)
Definition SectionCard (title : string)
    (section : option Summary.SummarySection) (type : CardType)
    : option Card :=
  match section with
  | None => None
  | Some s =>
      match Summary.blocks s with
      | [] => None
      | blocks => Some (mkCard title type (map Summary.content blocks))
      end
  end.

(** [!section?.blocks?.length]. *)
Definition noBlocks (section : option Summary.SummarySection) : bool :=
  match section with
  | None => true
  | Some s => (List.length (Summary.blocks s) =? 0)%nat
  end.

Definition shown (card : option Card) : list Card :=
  match card with
  | Some c => [c]
  | None => []
  end.

Definition IncrementalSummaryPanel (summary : option SummaryObject) : View :=
  match summary with
  | None => Waiting
  | Some o =>
      let immediate_action_items := getSection summary "immediate_action_items" in
      let key_items_decisions := getSection summary "key_items_decisions" in
      let next_steps := getSection summary "next_steps" in
      let people := getSection summary "people" in
      let critical_deadlines := getSection summary "critical_deadlines" in
      let session_summary := getSection summary "session_summary" in
      let isSummaryEmpty :=
        noBlocks people && noBlocks session_summary
        && noBlocks critical_deadlines && noBlocks key_items_decisions
        && noBlocks immediate_action_items && noBlocks next_steps in
      if isSummaryEmpty then Generating
      else
        Shown
          (match stringAt o "meeting_name" with
           | Some name => name
           | None =>
               match stringAt o "MeetingName" with
               | Some name => name
               | None => "Live Meeting Summary"%string
               end
           end)
          (shown (SectionCard "Action Items" immediate_action_items action)
           ++ shown (SectionCard "Key Decisions" key_items_decisions bullet)
           ++ shown (SectionCard "Next Steps" next_steps action)
           ++ shown (SectionCard "People" people bullet)
           ++ shown (SectionCard "Deadlines" critical_deadlines bullet)
           ++ shown (SectionCard "General Summary" session_summary bullet))
  end.

Definition cardTitles : list string :=
  [ "Action Items"; "Key Decisions"; "Next Steps"; "People"; "Deadlines";
    "General Summary" ]%string.

Definition sectionKeys : list string :=
  [ "immediate_action_items"; "key_items_decisions"; "next_steps"; "people";
    "critical_deadlines"; "session_summary" ]%string.

End Panel.

(** ** [SummaryGeneratorButtonGroup]: the check before a summary is generated *)

Module Generator.

(** How an awaited call settles. *)
Inductive Outcome (A : Type) : Type :=
| Resolved (value : A)
| Rejected (message : string).
Arguments Resolved {A} value.
Arguments Rejected {A} message.

(** Modelled from the spec: [status] of [BuiltInModelInfo] in
    [@/lib/builtin-ai], whose declaration is not among the sources; the
    cases are the ones the check tells apart. *)
Inductive ModelStatus : Type :=
| downloading (progress : Z)
| not_downloaded
| corrupted
| error (Error : option string)
| otherStatus.

Record ModelConfig : Type := {
  provider : string;
  model : option string;
  ollamaEndpoint : option string
}.

(** The toasts of the check, by their title. *)
Inductive Toast : Type :=
| NoModelSelected | ModelNotFound | ModelDownloading | ModelNotDownloaded
| ModelCorrupted | ModelError | ModelUnavailable | CheckFailed
| NoOllamaModels | OllamaNotInstalled | OllamaCheckFailed.

Inductive Action : Type :=
| setIsCheckingModels (checking : bool)
| setSettingsDialogOpen (open : bool)
| toast (t : Toast)
| console_error
| onGenerateSummary (customPrompt : string).

(** What the awaited commands answer: [builtin_ai_is_model_ready],
    [builtin_ai_get_model_info], [get_ollama_models]. *)
Record Backend : Type := {
  isReady : Outcome bool;
  modelInfo : Outcome (option ModelStatus);
  ollamaModels : Outcome (option (list string))
}.

Section Check.
(** [isOllamaNotInstalledError] of [@/lib/utils], which is not among the
    sources. *)
Variable isOllamaNotInstalledError : string -> bool.

(** The [try] block of [checkBuiltInAIModelsAndGenerate] with its
    [catch]. *)
Definition checkBuiltIn (config : ModelConfig) (customPrompt : string)
    (backend : Backend) : list Action :=
  match truthy (model config) with
  | None => [toast NoModelSelected; setSettingsDialogOpen true]
  | Some selectedModel =>
      match isReady backend with
      | Rejected _ => [console_error; toast CheckFailed]
      | Resolved true => [onGenerateSummary customPrompt]
      | Resolved false =>
          match modelInfo backend with
          | Rejected _ => [console_error; toast CheckFailed]
          | Resolved None => [toast ModelNotFound; setSettingsDialogOpen true]
          | Resolved (Some status) =>
              match status with
              | downloading _ => [toast ModelDownloading]
              | not_downloaded =>
                  [toast ModelNotDownloaded; setSettingsDialogOpen true]
              | corrupted => [toast ModelCorrupted; setSettingsDialogOpen true]
              | error _ => [toast ModelError; setSettingsDialogOpen true]
              | otherStatus =>
                  [toast ModelUnavailable; setSettingsDialogOpen true]
              end
          end
      end
  end.

Definition checkBuiltInAIModelsAndGenerate (config : ModelConfig)
    (customPrompt : string) (backend : Backend) : list Action :=
  setIsCheckingModels true :: checkBuiltIn config customPrompt backend
  ++ [setIsCheckingModels false].

Definition checkOllamaModelsAndGenerate (config : ModelConfig)
    (customPrompt : string) (backend : Backend) : list Action :=
  if String.eqb (provider config) "builtin-ai" then
    checkBuiltInAIModelsAndGenerate config customPrompt backend
  else if negb (String.eqb (provider config) "ollama") then
    [onGenerateSummary customPrompt]
  else
    setIsCheckingModels true
    :: match ollamaModels backend with
       | Resolved None | Resolved (Some []) =>
           [toast NoOllamaModels; setSettingsDialogOpen true]
       | Resolved (Some (_ :: _)) => [onGenerateSummary customPrompt]
       | Rejected errorMessage =>
           [console_error;
            toast (if isOllamaNotInstalledError errorMessage
                   then OllamaNotInstalled else OllamaCheckFailed);
            setSettingsDialogOpen true]
       end
    ++ [setIsCheckingModels false].
End Check.

Definition isGenerate (a : Action) : bool :=
  match a with
  | onGenerateSummary _ => true
  | _ => false
  end.

Definition isComplaint (a : Action) : bool :=
  match a with
  | toast _ | setSettingsDialogOpen true | console_error => true
  | _ => false
  end.

(** The value of [isCheckingModels] after the actions. *)
Definition checkingAfter (before : bool) (actions : list Action) : bool :=
  fold_left (fun checking a =>
               match a with
               | setIsCheckingModels b => b
               | _ => checking
               end) actions before.

(** The cases in which the summary may be generated. *)
Definition mayGenerate (config : ModelConfig) (backend : Backend) : bool :=
  if String.eqb (provider config) "builtin-ai" then
    match truthy (model config), isReady backend with
    | Some _, Resolved true => true
    | _, _ => false
    end
  else if String.eqb (provider config) "ollama" then
    match ollamaModels backend with
    | Resolved (Some (_ :: _)) => true
    | _ => false
    end
  else true.

End Generator.

(** ** The reload sync *)

(** Modelled from the spec: a segment of the transcript history returned
    by [transcriptService.getTranscriptHistory()], typed [any] in the
    provider; the fields are the ones [syncFromBackend] reads. *)
Module Segment.
Record t : Type := mk {
  id : string;
  text : string;
  display_time : string;
  sequence_id : option Z;
  confidence : option Z;
  audio_start_time : option Z;
  audio_end_time : option Z;
  duration : option Z
}.
End Segment.

(** The body of [history.map(...)] in [syncFromBackend]. *)
Definition formatSegment (segment : Segment.t) : Transcript.t :=
  Transcript.mk (Segment.id segment) (Segment.text segment)
    (Segment.display_time segment) (Segment.sequence_id segment)
    (Segment.audio_start_time segment) false (Segment.confidence segment)
    (Segment.audio_start_time segment) (Segment.audio_end_time segment)
    (Segment.duration segment).

(** [syncFromBackend] once the history has been fetched:
    [setTranscripts(formattedTranscripts)]. *)
Definition syncFromBackend (history : list Segment.t) (s : State) : State :=
  setTranscripts (fun _ => map formatSegment history) s.

(** ** Reading the counter back from a fragment id *)

Fixpoint hasDash (s : string) : bool :=
  match s with
  | EmptyString => false
  | String c r => Ascii.eqb c "-" || hasDash r
  end.

(** The part of [s] after its last dash ([s] itself without a dash). *)
Fixpoint afterLastDash (s : string) : string :=
  match s with
  | EmptyString => EmptyString
  | String c r =>
      if hasDash r then afterLastDash r
      else if Ascii.eqb c "-" then r else s
  end.

Definition counterOf (t : Transcript.t) : option Z :=
  JS.parseInt (afterLastDash (Transcript.id t)).

(** The fragments the provider holds, listed or buffered. *)
Definition fragments (s : State) : list Transcript.t :=
  transcripts s ++ JS.values (transcriptBuffer s).

(** Every fragment held carries a counter value of its own, below the
    current value of the counter. *)
Definition CountersOk (s : State) : Prop :=
  0 <= transcriptCounter s
  /\ BufferOk (transcriptBuffer s)
  /\ NoDup (map counterOf (fragments s))
  /\ Forall (fun t => exists c, counterOf t = Some c
                                /\ 0 <= c < transcriptCounter s)
       (fragments s).

(** * Properties *)

(** ** Facts about the JavaScript primitives *)

Section SortFacts.
Context {A : Type} (compareFn : A -> A -> Z) (le : A -> A -> Prop).
Hypothesis le_of_compare : forall a b, compareFn a b <= 0 -> le a b.
Hypothesis le_of_compare_gt : forall a b, 0 < compareFn a b -> le b a.
Hypothesis le_trans : forall a b c, le a b -> le b c -> le a c.

Lemma sort_insert_Permutation x l :
  Permutation (JS.sort_insert compareFn x l) (x :: l).
Proof.
  induction l as [|y l IH]; simpl.
  - apply Permutation_refl.
  - destruct (compareFn x y <=? 0).
    + apply Permutation_refl.
    + eapply Permutation_trans; [apply perm_skip, IH | apply perm_swap].
Qed.

Lemma sort_Permutation l : Permutation (JS.sort compareFn l) l.
Proof.
  induction l as [|x l IH]; simpl.
  - constructor.
  - eapply Permutation_trans; [apply sort_insert_Permutation|].
    now apply perm_skip.
Qed.

Lemma sort_insert_sorted x l :
  StronglySorted le l -> StronglySorted le (JS.sort_insert compareFn x l).
Proof.
  induction 1 as [|y l Hs IH Hy]; simpl.
  - repeat constructor.
  - destruct (Z.leb_spec (compareFn x y) 0) as [Hle|Hgt].
    + constructor; [now constructor|].
      constructor; [now apply le_of_compare|].
      eapply Forall_impl; [|exact Hy].
      intros z Hz. eapply le_trans; [apply le_of_compare|]; eassumption.
    + constructor; [exact IH|].
      eapply Permutation_Forall;
        [apply Permutation_sym, sort_insert_Permutation|].
      constructor; [now apply le_of_compare_gt | exact Hy].
Qed.

Lemma sort_sorted l : StronglySorted le (JS.sort compareFn l).
Proof.
  induction l as [|x l IH]; simpl.
  - constructor.
  - now apply sort_insert_sorted.
Qed.

(** A sorted array is left as it is. *)
Lemma sort_insert_head x l :
  Forall (fun y => compareFn x y <= 0) l ->
  JS.sort_insert compareFn x l = x :: l.
Proof.
  destruct 1 as [|y l Hy _]; simpl; [reflexivity|].
  destruct (Z.leb_spec (compareFn x y) 0); [reflexivity|lia].
Qed.
End SortFacts.

Section MapFacts.
Context {V : Type}.
Implicit Types (m : JS.Map V) (k : Z) (v : V).

Lemma has_In m k : JS.has m k = true <-> In k (JS.keys m).
Proof.
  unfold JS.has, JS.keys. rewrite existsb_exists, in_map_iff. split.
  - intros [e [He Hk]]. exists e. split; [lia | exact He].
  - intros [e [Hk He]]. exists e. split; [exact He | lia].
Qed.

Lemma has_get m k : JS.has m k = false <-> JS.get m k = None.
Proof.
  unfold JS.has, JS.get. induction m as [|[k' v'] m IH]; simpl.
  - tauto.
  - destruct (k' =? k); simpl; [split; discriminate | exact IH].
Qed.

Lemma get_In m k v : JS.get m k = Some v -> In (k, v) m.
Proof.
  unfold JS.get. destruct (find _ m) as [[k' v']|] eqn:Hf; [|discriminate].
  simpl. intros [= ->]. apply find_some in Hf as [Hin Hk].
  simpl in Hk. apply Z.eqb_eq in Hk. now subst.
Qed.

Lemma delete_absent m k : ~ In k (JS.keys m) -> JS.delete m k = m.
Proof.
  intros Hk. unfold JS.delete. apply forallb_filter_id, forallb_forall.
  intros e He. apply negb_true_iff, Z.eqb_neq. intros <-.
  apply Hk, in_map, He.
Qed.

Lemma delete_length m k v :
  JS.get m k = Some v -> (List.length (JS.delete m k) < List.length m)%nat.
Proof.
  unfold JS.get, JS.delete. induction m as [|[k' v'] m IH]; simpl.
  - discriminate.
  - destruct (k' =? k); simpl.
    + intros _. pose proof (filter_length_le (fun e => negb (fst e =? k)) m).
      lia.
    + intros H. apply IH in H. lia.
Qed.

Lemma delete_Permutation m k v :
  NoDup (JS.keys m) -> JS.get m k = Some v ->
  Permutation m ((k, v) :: JS.delete m k).
Proof.
  unfold JS.get. induction m as [|[k' v'] m IH]; simpl.
  - discriminate.
  - intros Hnd. inversion Hnd as [|? ? Hk' Hnd']; subst.
    destruct (Z.eqb_spec k' k) as [->|Hne]; simpl.
    + intros [= ->].
      replace (filter (fun e => negb (fst e =? k)) m) with (JS.delete m k)
        by reflexivity.
      now rewrite delete_absent.
    + intros H. eapply Permutation_trans; [apply perm_skip, IH; trivial|].
      apply perm_swap.
Qed.

Lemma delete_keys_incl m k : incl (JS.delete m k) m.
Proof. apply incl_filter. Qed.

Lemma keys_set m k v :
  JS.has m k = false -> JS.keys (JS.set m k v) = JS.keys m ++ [k].
Proof.
  intros H. unfold JS.set, JS.keys. rewrite H, map_app. reflexivity.
Qed.
End MapFacts.

(** ** The comparator orders by (chunk start time, sequence id) *)

Lemma compareTranscripts_le a b : compareTranscripts a b <= 0 -> before a b.
Proof.
  unfold compareTranscripts, before, key_le, sortKey; simpl.
  destruct (Z.eqb_spec
    (JS.or_zero (Transcript.chunk_start_time a)
     - JS.or_zero (Transcript.chunk_start_time b)) 0); simpl; lia.
Qed.

Lemma compareTranscripts_gt a b : 0 < compareTranscripts a b -> before b a.
Proof.
  unfold compareTranscripts, before, key_le, sortKey; simpl.
  destruct (Z.eqb_spec
    (JS.or_zero (Transcript.chunk_start_time a)
     - JS.or_zero (Transcript.chunk_start_time b)) 0); simpl; lia.
Qed.

Lemma before_trans a b c : before a b -> before b c -> before a c.
Proof. unfold before, key_le. lia. Qed.

Lemma sorted_by_key l : StronglySorted before (JS.sort compareTranscripts l).
Proof.
  apply sort_sorted.
  - exact compareTranscripts_le.
  - exact compareTranscripts_gt.
  - exact before_trans.
Qed.

Lemma sorted_by_sequence l :
  StronglySorted sequence_le (JS.sort compareSequence l).
Proof.
  apply sort_sorted; unfold compareSequence, sequence_le; intros; lia.
Qed.

(** Distinct sequence ids, all defined, make the order strict. *)
Lemma sorted_strict l :
  StronglySorted before l ->
  NoDup (map Transcript.sequence_id l) ->
  Forall (fun t => Transcript.sequence_id t <> None) l ->
  StronglySorted strictly_before l.
Proof.
  induction 1 as [|a l Hs IH Ha]; intros Hnd Hdef; simpl in *.
  - constructor.
  - inversion Hnd as [|? ? Hnotin Hnd']; subst.
    inversion Hdef as [|? ? Hsa Hdef']; subst.
    constructor; [now apply IH|].
    rewrite Forall_forall in *. intros b Hb.
    specialize (Ha b Hb). specialize (Hdef' b Hb).
    assert (Transcript.sequence_id a <> Transcript.sequence_id b) as Hne.
    { intros E. apply Hnotin. rewrite E. now apply in_map. }
    unfold before, strictly_before, key_le, key_lt, sortKey in *; simpl in *.
    destruct (Transcript.sequence_id a), (Transcript.sequence_id b);
      simpl in *; try congruence.
    assert (z <> z0) by congruence. lia.
Qed.

(** ** The merge *)

Lemma existingSequenceIds_In i l :
  In i (existingSequenceIds l) <-> In (Some i) (map Transcript.sequence_id l).
Proof.
  unfold existingSequenceIds. rewrite in_flat_map, in_map_iff. split.
  - intros [t [Ht Hi]]. exists t. split; [|exact Ht].
    destruct (Transcript.sequence_id t); simpl in Hi; [|contradiction].
    destruct Hi as [->|[]]. reflexivity.
  - intros [t [Hi Ht]]. exists t. split; [exact Ht|].
    rewrite Hi. now left.
Qed.

Lemma existsb_eqb_In i l : existsb (Z.eqb i) l = true <-> In i l.
Proof.
  rewrite existsb_exists. split.
  - intros [j [Hj E]]. apply Z.eqb_eq in E. now subst.
  - intros H. exists i. split; [exact H | apply Z.eqb_refl].
Qed.

Lemma isNew_true existing t :
  isNew existing t = true <->
  exists i, Transcript.sequence_id t = Some i /\ ~ In i existing.
Proof.
  unfold isNew. destruct (Transcript.sequence_id t) as [i|].
  - rewrite negb_true_iff, <- not_true_iff_false, existsb_eqb_In. split.
    + intros H. now exists i.
    + now intros [j [[= ->] H]].
  - split; [discriminate | now intros [i [? _]]].
Qed.

Lemma filter_nil {A} (f : A -> bool) l :
  (forall x, In x l -> f x = false) -> filter f l = [].
Proof.
  induction l as [|x l IH]; intros H; simpl; [reflexivity|].
  rewrite (H x (or_introl eq_refl)). apply IH. intros y Hy. apply H. now right.
Qed.

Lemma merge_Permutation batch prev :
  Permutation (merge batch prev)
    (prev ++ filter (isNew (existingSequenceIds prev)) batch).
Proof.
  unfold merge. destruct (filter _ batch) as [|t u].
  - now rewrite app_nil_r.
  - apply sort_Permutation.
Qed.

(** After a merge every defined sequence id of the batch is in the list. *)
Lemma merge_absorbs batch prev t :
  In t batch -> isNew (existingSequenceIds (merge batch prev)) t = false.
Proof.
  intros Ht. apply not_true_iff_false. intros Hnew.
  apply isNew_true in Hnew as [i [Hi Hnot]]. apply Hnot.
  apply existingSequenceIds_In.
  eapply Permutation_in;
    [apply Permutation_map, Permutation_sym, merge_Permutation|].
  rewrite map_app, in_app_iff.
  destruct (isNew (existingSequenceIds prev) t) eqn:Hn.
  - right. rewrite <- Hi. apply in_map, filter_In. now split.
  - left. apply existingSequenceIds_In.
    unfold isNew in Hn. rewrite Hi in Hn.
    apply negb_false_iff in Hn. now apply existsb_eqb_In.
Qed.

(** C8. [merge] is idempotent: merging a batch into a list that already
    went through the merge of the same batch gives that list back, for
    every batch and every list. *)
Theorem merge_idempotent (batch prev : list Transcript.t) :
  merge batch (merge batch prev) = merge batch prev.
Proof.
  set (once := merge batch prev).
  unfold merge at 1. fold once.
  rewrite (filter_nil (isNew (existingSequenceIds once)) batch).
  - reflexivity.
  - intros t Ht. now apply merge_absorbs.
Qed.

(** ** What a flush takes out of the buffer *)

Lemma filter_filter {A} (f g : A -> bool) l :
  filter f (filter g l) = filter (fun x => g x && f x) l.
Proof.
  induction l as [|x l IH]; simpl; [reflexivity|].
  destruct (g x); simpl; [destruct (f x)|]; now rewrite IH.
Qed.

Lemma classify_fold forceFlush now es f :
  fold_left (classify forceFlush now) es f =
  mkFlushed (sequential f)
    (staleTranscripts f
       ++ (if forceFlush then [] else filter (isStale now) (JS.values es)))
    (recentTranscripts f
       ++ (if forceFlush then [] else filter (isRecent now) (JS.values es)))
    (forceFlushTranscripts f ++ (if forceFlush then JS.values es else []))
    (filter (fun e => negb (deletedBy forceFlush now es e)) (remaining f))
    (lastProcessed f).
Proof.
  revert f. induction es as [|[k t] es IH]; intros f.
  - destruct f, forceFlush; simpl; rewrite ?app_nil_r, filter_true; reflexivity.
  - simpl fold_left. rewrite IH. clear IH.
    unfold classify, deletedBy, isTaken, isStale, isRecent, JS.delete.
    destruct forceFlush; simpl.
    + rewrite filter_filter, <- app_assoc. f_equal.
      apply filter_ext. intros e. rewrite negb_orb, andb_true_r.
      now rewrite (Z.eqb_sym k).
    + destruct (transcriptAge now t) as [age|]; simpl.
      * destruct (age >? staleThreshold); simpl.
        { rewrite filter_filter, <- app_assoc. f_equal.
          apply filter_ext. intros e. rewrite negb_orb, andb_true_r.
          now rewrite (Z.eqb_sym k). }
        destruct (age >=? recentThreshold); simpl.
        { rewrite filter_filter, <- app_assoc. f_equal.
          apply filter_ext. intros e. rewrite negb_orb, andb_true_r.
          now rewrite (Z.eqb_sym k). }
        f_equal. apply filter_ext. intros e. now rewrite andb_false_r.
      * f_equal. apply filter_ext. intros e. now rewrite andb_false_r.
Qed.

Lemma sequential_run_stop turns acc buffer last :
  JS.get buffer (last + 1) = None ->
  sequential_run turns acc buffer last = (acc, buffer, last).
Proof. intros H. destruct turns; simpl; [|rewrite H]; reflexivity. Qed.

(** The size of the buffer is enough turns: the loop has left because the
    next sequence id is absent, not because the turns were used up. *)
Lemma sequential_run_complete turns acc buffer last acc' buffer' last' :
  (List.length buffer <= turns)%nat ->
  sequential_run turns acc buffer last = (acc', buffer', last') ->
  JS.has buffer' (last' + 1) = false.
Proof.
  revert acc buffer last.
  induction turns as [|turns IH]; intros acc buffer last Hlen; simpl.
  - intros [= <- <- <-]. destruct buffer; [reflexivity | simpl in Hlen; lia].
  - destruct (JS.get buffer (last + 1)) as [t|] eqn:Hget.
    + apply IH. apply delete_length in Hget. lia.
    + intros [= <- <- <-]. now apply has_get.
Qed.

Lemma sequential_run_incl turns acc buffer last acc' buffer' last' :
  sequential_run turns acc buffer last = (acc', buffer', last') ->
  incl buffer' buffer.
Proof.
  revert acc buffer last.
  induction turns as [|turns IH]; intros acc buffer last; simpl.
  - intros [= <- <- <-]. apply incl_refl.
  - destruct (JS.get buffer (last + 1)) as [t|].
    + intros H. apply IH in H. eapply incl_tran; [exact H|].
      apply delete_keys_incl.
    + intros [= <- <- <-]. apply incl_refl.
Qed.

(** The run takes entries out of the buffer one sequence id after the
    other and loses none. *)
Lemma sequential_run_spec turns acc buffer last acc' buffer' last' :
  NoDup (JS.keys buffer) ->
  sequential_run turns acc buffer last = (acc', buffer', last') ->
  exists taken,
    acc' = acc ++ JS.values taken
    /\ Permutation buffer (taken ++ buffer')
    /\ JS.keys taken = map (fun i => last + 1 + Z.of_nat i)
                         (seq 0 (List.length taken))
    /\ last' = last + Z.of_nat (List.length taken).
Proof.
  revert acc buffer last.
  induction turns as [|turns IH]; intros acc buffer last Hnd; simpl.
  - intros [= <- <- <-]. exists []. simpl.
    rewrite app_nil_r, Z.add_0_r. auto.
  - destruct (JS.get buffer (last + 1)) as [t|] eqn:Hget.
    + intros H. pose proof (delete_Permutation _ _ _ Hnd Hget) as Hperm.
      apply IH in H as [taken [Hacc [Hp [Hk Hl]]]].
      * exists ((last + 1, t) :: taken). simpl. repeat split.
        -- now rewrite Hacc, <- app_assoc.
        -- eapply Permutation_trans; [exact Hperm|]. now apply perm_skip.
        -- rewrite Hk. f_equal; [lia|]. rewrite <- seq_shift, map_map.
           apply map_ext. intros i. lia.
        -- lia.
      * apply (Permutation_map fst) in Hperm.
        apply (Permutation_NoDup Hperm) in Hnd. now inversion Hnd.
    + intros [= <- <- <-]. exists []. simpl.
      rewrite app_nil_r, Z.add_0_r. auto.
Qed.

Lemma flush_unfold forceFlush now buffer last acc' buffer' last' :
  sequential_run (List.length buffer) [] buffer last = (acc', buffer', last') ->
  flush forceFlush now buffer last =
  mkFlushed acc'
    (if forceFlush then [] else filter (isStale now) (JS.values buffer'))
    (if forceFlush then [] else filter (isRecent now) (JS.values buffer'))
    (if forceFlush then JS.values buffer' else [])
    (filter (fun e => negb (deletedBy forceFlush now buffer' e)) buffer')
    last'.
Proof.
  intros H. unfold flush. rewrite H, classify_fold. reflexivity.
Qed.

Lemma deletedBy_self forceFlush now es e :
  In e es -> isTaken forceFlush now (snd e) = true ->
  deletedBy forceFlush now es e = true.
Proof.
  intros He Ht. unfold deletedBy. apply existsb_exists.
  exists e. now rewrite Z.eqb_refl, Ht.
Qed.

Lemma flush_remaining_nil forceFlush now buffer last :
  (forall e, In e buffer -> isTaken forceFlush now (snd e) = true) ->
  remaining (flush forceFlush now buffer last) = [].
Proof.
  intros Htaken.
  destruct (sequential_run (List.length buffer) [] buffer last)
    as [[acc' buffer'] last'] eqn:Hrun.
  rewrite (flush_unfold _ _ _ _ _ _ _ Hrun). simpl.
  apply filter_nil. intros e He. apply negb_false_iff.
  apply deletedBy_self; [exact He|].
  apply Htaken. eapply sequential_run_incl; eassumption.
Qed.

Lemma transcriptBuffer_sendChunk c s :
  transcriptBuffer (sendChunk c s) = transcriptBuffer s.
Proof.
  unfold sendChunk. destruct (truthy _); [|reflexivity].
  destruct (summarySessionActiveRef s); reflexivity.
Qed.

Lemma transcriptBuffer_processBufferedTranscripts forceFlush now s :
  transcriptBuffer (processBufferedTranscripts forceFlush now s) =
  remaining (flush forceFlush now (transcriptBuffer s) (lastProcessedSequence s)).
Proof.
  unfold processBufferedTranscripts. destruct (allNewTranscripts _).
  - reflexivity.
  - now rewrite transcriptBuffer_sendChunk.
Qed.

(** C9. [flush(true)] leaves the buffer empty, whatever it held and
    whatever the last processed sequence id was: the fragments of the
    sequential run are deleted, and every fragment left after the run is
    taken as forced, none as stale or recent. *)
Theorem force_flush_empties_buffer (now : Z) (s : State) :
  let f := flush true now (transcriptBuffer s) (lastProcessedSequence s) in
  transcriptBuffer (processBufferedTranscripts true now s) = []
  /\ transcriptBuffer (flushBuffer now s) = []
  /\ forceFlushTranscripts f
     = JS.values (afterRun (transcriptBuffer s) (lastProcessedSequence s))
  /\ staleTranscripts f = []
  /\ recentTranscripts f = [].
Proof.
  intros f.
  assert (transcriptBuffer (processBufferedTranscripts true now s) = []) as H.
  { rewrite transcriptBuffer_processBufferedTranscripts.
    apply flush_remaining_nil. reflexivity. }
  split; [exact H|]. split; [exact H|].
  subst f. unfold afterRun.
  destruct (sequential_run (List.length (transcriptBuffer s)) []
              (transcriptBuffer s) (lastProcessedSequence s))
    as [[acc' buffer'] last'] eqn:Hrun.
  rewrite (flush_unfold _ _ _ _ _ _ _ Hrun). simpl. repeat split.
Qed.

(** ** The arrival time kept in the id of a buffered fragment *)

Lemma split_dash_0_string_of_uint d rest :
  JS.split_dash_0 (NilEmpty.string_of_uint d ++ String "-" rest)%string
  = NilEmpty.string_of_uint d.
Proof. induction d; simpl; congruence. Qed.

Lemma decimal_prefix_string_of_uint d :
  JS.decimal_prefix (NilEmpty.string_of_uint d) = d.
Proof. induction d; simpl; congruence. Qed.

Lemma parseInt_string_of_uint d :
  d <> Decimal.Nil ->
  JS.parseInt (NilEmpty.string_of_uint d) = Some (Z.of_uint d).
Proof.
  intros Hd. destruct d as [|d|d|d|d|d|d|d|d|d|d]; try contradiction;
    try (unfold JS.parseInt, JS.parse_digits; simpl;
         now rewrite decimal_prefix_string_of_uint).
  destruct d; unfold JS.parseInt, JS.parse_digits; simpl;
    now rewrite ?decimal_prefix_string_of_uint.
Qed.

(** Reading the clock back from [`${Date.now()}-${transcriptCounter}`]. *)
Lemma parseInt_id created counter :
  0 <= created ->
  JS.parseInt
    (JS.split_dash_0 (JS.toString created ++ "-" ++ JS.toString counter)%string)
  = Some created.
Proof.
  intros Hc. unfold JS.toString. destruct created as [|p|p]; [| |lia].
  - reflexivity.
  - simpl Z.to_int. unfold NilZero.string_of_int, NilZero.string_of_uint.
    pose proof (Unsigned.to_uint_nonnil p) as Hnil.
    destruct (Pos.to_uint p) eqn:E; try contradiction;
      rewrite <- E in *; change ("-" ++ ?r)%string with (String "-" r);
      rewrite split_dash_0_string_of_uint;
      rewrite parseInt_string_of_uint by exact Hnil;
      unfold Z.of_uint; now rewrite Unsigned.of_to.
Qed.

Lemma arrivalTime_onTranscriptUpdate now update s t :
  0 <= now ->
  JS.has (transcriptBuffer s) (TranscriptUpdate.sequence_id update) = false ->
  JS.get (transcriptBuffer (onTranscriptUpdate now update s))
    (TranscriptUpdate.sequence_id update) = Some t ->
  arrivalTime t = Some now.
Proof.
  intros Hnow Hhas. unfold onTranscriptUpdate. rewrite Hhas. simpl.
  unfold JS.set. rewrite Hhas. intros Hget. apply get_In in Hget.
  apply in_app_or in Hget as [Hin|[[= <-]|[]]].
  - apply (in_map fst) in Hin. apply has_In in Hin. simpl in Hin. congruence.
  - unfold arrivalTime. simpl. now apply parseInt_id.
Qed.

Lemma isTaken_arrived now t arrived :
  arrivalTime t = Some arrived -> arrived <= now -> isTaken false now t = true.
Proof.
  unfold isTaken, isStale, isRecent, transcriptAge, arrivalTime.
  intros -> Hle. simpl. unfold staleThreshold, recentThreshold.
  destruct (Z.gtb_spec (now - arrived) 100); simpl; [reflexivity|].
  apply Z.geb_le. lia.
Qed.

(** ** Nothing is lost by a flush *)

Lemma filter3_Permutation {A} (p q : A -> bool) l :
  (forall x, p x = true -> q x = false) ->
  Permutation (filter p l ++ filter q l ++ filter (fun x => negb (p x || q x)) l) l.
Proof.
  intros Hpq. induction l as [|x l IH]; simpl; [constructor|].
  destruct (p x) eqn:Hp; simpl.
  - rewrite (Hpq x Hp). simpl. now apply perm_skip.
  - destruct (q x); simpl.
    + apply Permutation_sym, Permutation_cons_app, Permutation_sym, IH.
    + rewrite app_assoc. apply Permutation_sym, Permutation_cons_app.
      rewrite <- app_assoc. apply Permutation_sym, IH.
Qed.

Lemma NoDup_keys_inj {V} (m : JS.Map V) e e' :
  NoDup (JS.keys m) -> In e m -> In e' m -> fst e = fst e' -> e = e'.
Proof.
  unfold JS.keys. induction m as [|x m IH]; simpl; [contradiction|].
  intros Hnd [->|He] [->|He'] Hk; inversion Hnd as [|? ? Hx Hnd']; subst.
  - reflexivity.
  - exfalso. apply Hx. rewrite Hk. now apply in_map.
  - exfalso. apply Hx. rewrite <- Hk. now apply in_map.
  - now apply IH.
Qed.

Lemma deletedBy_NoDup forceFlush now es e :
  NoDup (JS.keys es) -> In e es ->
  deletedBy forceFlush now es e = isTaken forceFlush now (snd e).
Proof.
  intros Hnd He. destruct (isTaken forceFlush now (snd e)) eqn:Ht.
  - now apply deletedBy_self.
  - apply not_true_iff_false. unfold deletedBy. rewrite existsb_exists.
    intros [e' [He' H]]. apply andb_true_iff in H as [Hk Ht'].
    apply Z.eqb_eq in Hk.
    rewrite (NoDup_keys_inj es e' e Hnd He' He Hk) in Ht'. congruence.
Qed.

Lemma isRecent_not_stale now t : isRecent now t = true -> isStale now t = false.
Proof.
  unfold isRecent, isStale. destruct (transcriptAge now t); [|discriminate].
  intros H. apply andb_true_iff in H as [H _]. now apply negb_true_iff.
Qed.

(** Every fragment of the buffer is either in the batch or still in the
    buffer, once. *)
Lemma flush_conservation forceFlush now buffer last :
  NoDup (JS.keys buffer) ->
  let f := flush forceFlush now buffer last in
  Permutation (allNewTranscripts f ++ JS.values (remaining f)) (JS.values buffer).
Proof.
  intros Hnd.
  destruct (sequential_run (List.length buffer) [] buffer last)
    as [[acc' buffer'] last'] eqn:Hrun.
  destruct (sequential_run_spec _ _ _ _ _ _ _ Hnd Hrun)
    as [taken [Hacc [Hperm _]]].
  simpl in Hacc. subst acc'.
  assert (NoDup (JS.keys buffer')) as Hnd'.
  { apply (Permutation_map fst) in Hperm.
    apply (Permutation_NoDup Hperm) in Hnd.
    unfold JS.keys in *. rewrite map_app in Hnd.
    now apply NoDup_app_remove_l in Hnd. }
  cbv zeta. rewrite (flush_unfold _ _ _ _ _ _ _ Hrun).
  unfold allNewTranscripts, sortTranscripts. simpl.
  rewrite (filter_ext_in _ (fun e => negb (isTaken forceFlush now (snd e))))
    by (intros e He; now rewrite deletedBy_NoDup).
  unfold JS.values at 5.
  rewrite <- (filter_map_swap (fun t => negb (isTaken forceFlush now t)) snd).
  fold (JS.values buffer').
  apply (Permutation_map snd) in Hperm. unfold JS.values at 6.
  rewrite Hperm, map_app, <- app_assoc. fold (JS.values taken).
  apply Permutation_app_head. fold (JS.values buffer').
  rewrite !sort_Permutation, <- !app_assoc.
  destruct forceFlush; simpl.
  - rewrite filter_false, app_nil_r. apply Permutation_refl.
  - rewrite (filter_ext (fun t => negb (isTaken false now t))
                        (fun t => negb (isRecent now t || isStale now t)))
      by (intros t; unfold isTaken; simpl; now rewrite orb_comm).
    apply filter3_Permutation. intros t. apply isRecent_not_stale.
Qed.

Lemma lastProcessedSequence_sendChunk c s :
  lastProcessedSequence (sendChunk c s) = lastProcessedSequence s.
Proof.
  unfold sendChunk. destruct (truthy _); [|reflexivity].
  destruct (summarySessionActiveRef s); reflexivity.
Qed.

Lemma lastProcessedSequence_processBufferedTranscripts forceFlush now s :
  lastProcessedSequence (processBufferedTranscripts forceFlush now s) =
  lastProcessed
    (flush forceFlush now (transcriptBuffer s) (lastProcessedSequence s)).
Proof.
  unfold processBufferedTranscripts. destruct (allNewTranscripts _).
  - reflexivity.
  - now rewrite lastProcessedSequence_sendChunk.
Qed.

(** C10. With [recentThreshold = 0] a debounced flush, [flush(false)],
    removes every buffered fragment that arrived at a clock value not after
    [now]: the fragment is no longer in the buffer after the call and (a
    sequence id being buffered once) it is in the batch, taken by the
    sequential run, as stale or as recent, never as forced.  When this is so
    for all the buffered fragments, the buffer is empty after one call. *)
Theorem debounced_flush_empties_buffer (now : Z) (s : State) :
  let buffer := transcriptBuffer s in
  let f := flush false now buffer (lastProcessedSequence s) in
  let buffer' := transcriptBuffer (processBufferedTranscripts false now s) in
  (forall k t arrived,
      In (k, t) buffer -> arrivalTime t = Some arrived -> arrived <= now ->
      ~ In (k, t) buffer'
      /\ (NoDup (JS.keys buffer) -> In t (allNewTranscripts f)))
  /\ (Forall (fun e => exists arrived,
                 arrivalTime (snd e) = Some arrived /\ arrived <= now) buffer ->
      buffer' = [])
  /\ forceFlushTranscripts f = [].
Proof.
  intros buffer f buffer'.
  assert (buffer' = remaining f) as Hb'
    by apply transcriptBuffer_processBufferedTranscripts.
  destruct (sequential_run (List.length buffer) [] buffer
              (lastProcessedSequence s)) as [[acc' rest] last'] eqn:Hrun.
  pose proof (flush_unfold false now _ _ _ _ _ Hrun) as Hf.
  fold f in Hf. simpl in Hf.
  assert (forall e arrived,
             arrivalTime (snd e) = Some arrived -> arrived <= now ->
             ~ In e (remaining f)) as Hgone.
  { intros e arrived Ha Hle Hin. rewrite Hf in Hin. simpl in Hin.
    apply filter_In in Hin as [Hin Hkept].
    rewrite deletedBy_self in Hkept; [discriminate | exact Hin |].
    eapply isTaken_arrived; eassumption. }
  split; [|split].
  - intros k t arrived Hin Ha Hle. split.
    + rewrite Hb'. now apply (Hgone (k, t) arrived).
    + intros Hnd.
      pose proof (flush_conservation false now buffer
                    (lastProcessedSequence s) Hnd) as Hcons.
      cbv zeta in Hcons. fold f in Hcons.
      apply (in_map snd) in Hin. simpl in Hin.
      apply (Permutation_in _ (Permutation_sym Hcons)) in Hin.
      apply in_app_or in Hin as [Hin|Hin]; [exact Hin|].
      apply in_map_iff in Hin as [e [He Hin]]. exfalso.
      apply (Hgone e arrived); [now rewrite He | exact Hle | exact Hin].
  - intros Hall. rewrite Hb'. apply flush_remaining_nil. intros e He.
    rewrite Forall_forall in Hall.
    destruct (Hall e He) as [arrived [Ha Hle]].
    eapply isTaken_arrived; eassumption.
  - now rewrite Hf.
Qed.

Lemma debounced_flush_empties_buffer_witness :
  transcriptBuffer (processBufferedTranscripts false 1005 threeOneTwo) = [].
Proof.
  destruct (debounced_flush_empties_buffer 1005 threeOneTwo) as [_ [H _]].
  apply H. repeat constructor.
  - exists 1000. split; [reflexivity | lia].
  - exists 1001. split; [reflexivity | lia].
  - exists 1002. split; [reflexivity | lia].
Defined.

Lemma isStale_true now t :
  isStale now t = true <->
  exists age, transcriptAge now t = Some age /\ staleThreshold < age.
Proof.
  unfold isStale. destruct (transcriptAge now t) as [age|].
  - rewrite Z.gtb_ltb, Z.ltb_lt. split.
    + intros H. now exists age.
    + now intros [a [[= ->] H]].
  - split; [discriminate | now intros [a [? _]]].
Qed.

Lemma isRecent_true now t :
  isRecent now t = true <->
  exists age, transcriptAge now t = Some age
              /\ recentThreshold <= age <= staleThreshold.
Proof.
  unfold isRecent. destruct (transcriptAge now t) as [age|].
  - rewrite andb_true_iff, negb_true_iff, Z.gtb_ltb, Z.ltb_ge, Z.geb_le. split.
    + intros H. exists age. split; [reflexivity | lia].
    + intros [a [[= ->] H]]. lia.
  - split; [discriminate | now intros [a [? _]]].
Qed.

(** C6, as the code has it.  In [flush(false)] a fragment left after the
    sequential run is stale when its age is greater than [staleThreshold]
    (100 ms), and recent when its age is from [recentThreshold] (0) to 100 ms
    included.  When fragment 5 alone is buffered, nothing was processed yet
    and its age is over 100 ms, the batch is that fragment, classified stale,
    the buffer is emptied and [lastProcessedSequence] stays 0. *)
Theorem stale_above_threshold (now : Z) (s : State) :
  let buffer := transcriptBuffer s in
  let last := lastProcessedSequence s in
  let f := flush false now buffer last in
  (forall t, In t (staleTranscripts f) <->
     In t (JS.values (afterRun buffer last))
     /\ exists age, transcriptAge now t = Some age /\ staleThreshold < age)
  /\ (forall t, In t (recentTranscripts f) <->
        In t (JS.values (afterRun buffer last))
        /\ exists age, transcriptAge now t = Some age
                       /\ recentThreshold <= age <= staleThreshold)
  /\ (forall t age,
        buffer = [(5, t)] -> last = 0 ->
        transcriptAge now t = Some age -> staleThreshold < age ->
        allNewTranscripts f = [t]
        /\ staleTranscripts f = [t]
        /\ recentTranscripts f = []
        /\ transcriptBuffer (processBufferedTranscripts false now s) = []
        /\ lastProcessedSequence (processBufferedTranscripts false now s) = 0).
Proof.
  intros buffer last f. unfold afterRun.
  destruct (sequential_run (List.length buffer) [] buffer last)
    as [[acc' buffer'] last'] eqn:Hrun.
  pose proof (flush_unfold false now _ _ _ _ _ Hrun) as Hf. fold f in Hf.
  simpl in Hf. split; [|split].
  - intros t. rewrite Hf. simpl. now rewrite filter_In, isStale_true.
  - intros t. rewrite Hf. simpl. now rewrite filter_In, isRecent_true.
  - intros t age Hb Hl Hage Hgt.
    assert (isStale now t = true) as Hs by (apply isStale_true; eauto).
    assert (isRecent now t = false) as Hr.
    { apply not_true_iff_false. intros H.
      apply isRecent_not_stale in H. congruence. }
    rewrite transcriptBuffer_processBufferedTranscripts,
      lastProcessedSequence_processBufferedTranscripts.
    fold buffer last f. rewrite Hb, Hl in Hrun.
    rewrite sequential_run_stop in Hrun by reflexivity.
    injection Hrun as <- <- <-.
    rewrite Hf. unfold allNewTranscripts, deletedBy, isTaken. simpl.
    rewrite Hs, Hr. simpl. repeat split; assumption.
Qed.

Lemma stale_above_threshold_witness :
  exists t,
    transcriptBuffer onlyFive = [(5, t)]
    /\ transcriptAge 1101 t = Some 101
    /\ allNewTranscripts
         (flush false 1101 (transcriptBuffer onlyFive)
            (lastProcessedSequence onlyFive)) = [t]
    /\ staleTranscripts
         (flush false 1101 (transcriptBuffer onlyFive)
            (lastProcessedSequence onlyFive)) = [t]
    /\ lastProcessedSequence (processBufferedTranscripts false 1101 onlyFive)
       = 0.
Proof.
  eexists. split; [reflexivity|]. split; [reflexivity|].
  destruct (stale_above_threshold 1101 onlyFive) as [_ [_ H]].
  destruct (H _ 101 eq_refl eq_refl eq_refl) as [Ha [Hs [_ [_ Hl]]]].
  - unfold staleThreshold. lia.
  - repeat split; assumption.
Defined.

(** C6 as stated fails at the threshold itself: it is not the case that
    every fragment left after the sequential run whose age is at least
    [staleThreshold] is classified stale.  Fragment 5 buffered at clock 1000
    and flushed at clock 1100 has age exactly 100 ms and is classified
    recent. *)
Lemma stale_at_threshold_counterexample :
  ~ (forall (now : Z) (s : State) (t : Transcript.t) (age : Z),
       In t (JS.values (afterRun (transcriptBuffer s)
                          (lastProcessedSequence s))) ->
       transcriptAge now t = Some age ->
       age >= staleThreshold ->
       In t (staleTranscripts
               (flush false now (transcriptBuffer s)
                  (lastProcessedSequence s)))).
Proof.
  intros H.
  assert (exists t,
             JS.values (afterRun (transcriptBuffer onlyFive)
                          (lastProcessedSequence onlyFive)) = [t])
    as [t Ht] by (eexists; reflexivity).
  specialize (H 1100 onlyFive t 100).
  rewrite Ht in H. injection Ht as <-.
  apply H.
  - now left.
  - reflexivity.
  - unfold staleThreshold. lia.
Qed.

(** ** The buffer invariant *)

Lemma NoDup_map_filter {A B} (g : A -> B) (p : A -> bool) l :
  NoDup (map g l) -> NoDup (map g (filter p l)).
Proof.
  induction l as [|x l IH]; simpl; intros H; [constructor|].
  inversion H as [|? ? Hx Hl]; subst.
  destruct (p x); simpl; [constructor|]; auto.
  intros Hin. apply Hx. apply in_map_iff in Hin as [y [Hy Hin]].
  apply filter_In in Hin as [Hin _]. rewrite <- Hy. now apply in_map.
Qed.

Lemma NoDup_map_Some (l : list Z) : NoDup l -> NoDup (map Some l).
Proof.
  induction 1 as [|x l Hx Hl IH]; simpl; constructor; [|exact IH].
  intros Hin. apply in_map_iff in Hin as [y [[= ->] Hin]]. contradiction.
Qed.

Lemma BufferOk_ids buffer :
  BufferOk buffer ->
  map Transcript.sequence_id (JS.values buffer) = map Some (JS.keys buffer).
Proof.
  intros [_ Hall]. unfold JS.values, JS.keys. rewrite !map_map.
  apply map_ext_in. intros e He. rewrite Forall_forall in Hall. now apply Hall.
Qed.

Lemma BufferOk_nil : BufferOk [].
Proof. split; constructor. Qed.

Lemma BufferOk_onTranscriptUpdate now update s :
  BufferOk (transcriptBuffer s) ->
  BufferOk (transcriptBuffer (onTranscriptUpdate now update s)).
Proof.
  intros [Hnd Hall]. unfold onTranscriptUpdate.
  destruct (JS.has _ _) eqn:Hhas; [now split|]. simpl. split.
  - rewrite keys_set by exact Hhas.
    apply NoDup_app; [exact Hnd | repeat constructor; intros [] |].
    intros k Hk [<-|[]]. apply has_In in Hk. congruence.
  - unfold JS.set. rewrite Hhas. apply Forall_app. split; [exact Hall|].
    now repeat constructor.
Qed.

Lemma keys_onTranscriptUpdate now update s i :
  In i (JS.keys (transcriptBuffer (onTranscriptUpdate now update s))) <->
  In i (JS.keys (transcriptBuffer s)) \/ i = TranscriptUpdate.sequence_id update.
Proof.
  unfold onTranscriptUpdate. destruct (JS.has _ _) eqn:Hhas; simpl.
  - apply has_In in Hhas. split; [now left|]. now intros [H| ->].
  - rewrite keys_set by exact Hhas. rewrite in_app_iff. simpl.
    intuition congruence.
Qed.

Lemma transcripts_deliver arrivals s :
  transcripts (deliver arrivals s) = transcripts s.
Proof.
  revert s. induction arrivals as [|a l IH]; intros s; simpl; [reflexivity|].
  unfold deliver in *. simpl. rewrite IH. unfold onTranscriptUpdate.
  now destruct (JS.has _ _).
Qed.

Lemma BufferOk_deliver arrivals s :
  BufferOk (transcriptBuffer s) ->
  BufferOk (transcriptBuffer (deliver arrivals s)).
Proof.
  revert s. induction arrivals as [|a l IH]; intros s H; simpl; [exact H|].
  apply IH. now apply BufferOk_onTranscriptUpdate.
Qed.

Lemma keys_deliver arrivals s i :
  In i (JS.keys (transcriptBuffer (deliver arrivals s))) <->
  In i (JS.keys (transcriptBuffer s))
  \/ In i (map (fun a => TranscriptUpdate.sequence_id (snd a)) arrivals).
Proof.
  revert s. induction arrivals as [|a l IH]; intros s; simpl.
  - tauto.
  - unfold deliver in *. simpl. rewrite IH, keys_onTranscriptUpdate.
    intuition congruence.
Qed.

Lemma BufferOk_processBufferedTranscripts forceFlush now s :
  BufferOk (transcriptBuffer s) ->
  BufferOk (transcriptBuffer (processBufferedTranscripts forceFlush now s)).
Proof.
  intros [Hnd Hall]. rewrite transcriptBuffer_processBufferedTranscripts.
  destruct (sequential_run (List.length (transcriptBuffer s)) []
              (transcriptBuffer s) (lastProcessedSequence s))
    as [[acc' buffer'] last'] eqn:Hrun.
  rewrite (flush_unfold _ _ _ _ _ _ _ Hrun). simpl.
  destruct (sequential_run_spec _ _ _ _ _ _ _ Hnd Hrun)
    as [taken [_ [Hperm _]]].
  split.
  - apply NoDup_map_filter.
    apply (Permutation_map fst) in Hperm.
    apply (Permutation_NoDup Hperm) in Hnd.
    rewrite map_app in Hnd. now apply NoDup_app_remove_l in Hnd.
  - rewrite Forall_forall in *. intros e He. apply Hall.
    apply filter_In in He as [He _].
    eapply sequential_run_incl; eassumption.
Qed.

(** The batch of a flush holds each sequence id at most once, and every
    fragment of it carries the sequence id it was buffered under. *)
Lemma batch_ids forceFlush now buffer last :
  BufferOk buffer ->
  let batch := allNewTranscripts (flush forceFlush now buffer last) in
  NoDup (map Transcript.sequence_id batch)
  /\ Forall (fun t => Transcript.sequence_id t <> None) batch.
Proof.
  intros Hok batch. pose proof Hok as [Hnd Hall].
  pose proof (flush_conservation forceFlush now buffer last Hnd) as Hcons.
  cbv zeta in Hcons. fold batch in Hcons. split.
  - apply (Permutation_map Transcript.sequence_id), Permutation_sym in Hcons.
    rewrite BufferOk_ids in Hcons by exact Hok.
    assert (NoDup (map Some (JS.keys buffer))) as H
      by now apply NoDup_map_Some.
    apply (Permutation_NoDup Hcons) in H.
    rewrite map_app in H. now apply NoDup_app_remove_r in H.
  - rewrite Forall_forall. intros t Ht.
    assert (In t (JS.values buffer)) as Hin.
    { eapply Permutation_in; [exact Hcons|]. apply in_or_app. now left. }
    apply in_map_iff in Hin as [e [<- He]].
    rewrite Forall_forall in Hall. rewrite (Hall e He). discriminate.
Qed.

(** ** The invariant of the transcript list *)

Lemma transcripts_sendChunk c s : transcripts (sendChunk c s) = transcripts s.
Proof.
  unfold sendChunk. destruct (truthy _); [|reflexivity].
  destruct (summarySessionActiveRef s); reflexivity.
Qed.

Lemma transcripts_processBufferedTranscripts forceFlush now s :
  transcripts (processBufferedTranscripts forceFlush now s) =
  merge (allNewTranscripts
           (flush forceFlush now (transcriptBuffer s) (lastProcessedSequence s)))
    (transcripts s).
Proof.
  unfold processBufferedTranscripts. destruct (allNewTranscripts _).
  - reflexivity.
  - now rewrite transcripts_sendChunk.
Qed.

Lemma merge_sorted batch prev :
  StronglySorted before prev -> StronglySorted before (merge batch prev).
Proof.
  intros H. unfold merge. destruct (filter _ batch); [exact H|].
  apply sorted_by_key.
Qed.

Lemma merge_NoDup batch prev :
  NoDup (map Transcript.sequence_id prev) ->
  NoDup (map Transcript.sequence_id batch) ->
  NoDup (map Transcript.sequence_id (merge batch prev)).
Proof.
  intros Hprev Hbatch.
  eapply Permutation_NoDup;
    [apply Permutation_map, Permutation_sym, merge_Permutation|].
  rewrite map_app. apply NoDup_app.
  - exact Hprev.
  - now apply NoDup_map_filter.
  - intros x Hx Hin. apply in_map_iff in Hin as [t [<- Ht]].
    apply filter_In in Ht as [_ Hnew].
    apply isNew_true in Hnew as [i [Hi Hnot]]. rewrite Hi in Hx.
    now apply Hnot, existingSequenceIds_In.
Qed.

Lemma merge_ok batch prev :
  TranscriptListOk prev ->
  NoDup (map Transcript.sequence_id batch) ->
  TranscriptListOk (merge batch prev).
Proof.
  intros [Hs Hnd] Hb. split; [now apply merge_sorted | now apply merge_NoDup].
Qed.

Lemma transcripts_addTranscript now update s :
  transcripts (addTranscript now update s) = transcripts s
  \/ exists newTranscript,
       Transcript.sequence_id newTranscript
       = Some (TranscriptUpdate.sequence_id update)
       /\ transcripts (addTranscript now update s)
          = JS.sort compareSequence (transcripts s ++ [newTranscript]).
Proof.
  unfold addTranscript. simpl.
  destruct (existsb _ _); [now left|]. right. eexists. split.
  2: reflexivity. reflexivity.
Qed.

(** C3, as the code has it.  The flush-and-merge path keeps the transcript
    list sorted by (chunk start time, sequence id) with no sequence id
    twice.  [addTranscript] orders by sequence id alone and looks for a
    duplicate by text and timestamp: what it keeps is the order of the
    sequence ids, ties allowed. *)
Theorem transcript_list_invariant
    (forceFlush : bool) (now : Z) (update : TranscriptUpdate.t) (s : State) :
  (TranscriptListOk (transcripts s) ->
   BufferOk (transcriptBuffer s) ->
   TranscriptListOk (transcripts (processBufferedTranscripts forceFlush now s))
   /\ BufferOk (transcriptBuffer (processBufferedTranscripts forceFlush now s)))
  /\ (StronglySorted sequence_le (transcripts s) ->
      StronglySorted sequence_le (transcripts (addTranscript now update s))).
Proof.
  split.
  - intros Hl Hb. split.
    + rewrite transcripts_processBufferedTranscripts.
      apply merge_ok; [exact Hl|]. now apply batch_ids.
    + now apply BufferOk_processBufferedTranscripts.
  - intros Hs. destruct (transcripts_addTranscript now update s)
      as [->|[t [_ ->]]]; [exact Hs | apply sorted_by_sequence].
Qed.

Lemma transcript_list_invariant_witness :
  TranscriptListOk (transcripts (processBufferedTranscripts false 1005 threeOneTwo))
  /\ StronglySorted sequence_le
       (transcripts (addTranscript 2000 (sampleUpdate 5 "again" 10) fiveListed)).
Proof.
  destruct (transcript_list_invariant false 1005 (sampleUpdate 5 "again" 10)
              threeOneTwo) as [H _].
  destruct (transcript_list_invariant false 2000 (sampleUpdate 5 "again" 10)
              fiveListed) as [_ H'].
  split.
  - apply H.
    + split; constructor.
    + apply BufferOk_deliver, BufferOk_nil.
  - apply H'. repeat constructor.
Defined.

(** C3 as stated fails for [addTranscript]: the list made of fragment 5
    (chunk start time 40) satisfies the invariant; adding an update with the
    same sequence id 5, another text and chunk start time 10 gives a list
    that holds sequence id 5 twice, the later chunk first. *)
Lemma addTranscript_breaks_invariant_counterexample :
  ~ (forall (now : Z) (update : TranscriptUpdate.t) (s : State),
       TranscriptListOk (transcripts s) ->
       TranscriptListOk (transcripts (addTranscript now update s))).
Proof.
  intros H.
  specialize (H 2000 (sampleUpdate 5 "again" 10) fiveListed).
  destruct H as [_ Hnd].
  - split; repeat constructor. intros [].
  - vm_compute in Hnd. inversion Hnd as [|? ? Hin _]. apply Hin. now left.
Qed.

(** ** Arrivals in any order, with repeats, then a forced flush *)

Lemma merge_into_empty batch :
  Forall (fun t => Transcript.sequence_id t <> None) batch ->
  Permutation (merge batch []) batch.
Proof.
  intros Hdef.
  eapply Permutation_trans; [apply merge_Permutation|]. simpl.
  rewrite forallb_filter_id; [apply Permutation_refl|].
  apply forallb_forall. intros t Ht. rewrite Forall_forall in Hdef.
  specialize (Hdef t Ht). unfold isNew.
  now destruct (Transcript.sequence_id t).
Qed.

(** C2. Fragments arrive in any order, a sequence id any number of times,
    into a provider whose list and buffer are empty; [flush(true)] follows.
    The transcript list then holds each distinct sequence id exactly once,
    it is strictly sorted by (chunk start time, sequence id), and the buffer
    is empty. *)
Theorem arrivals_then_force_flush
    (arrivals : list (Z * TranscriptUpdate.t)) (now : Z) (s : State) :
  transcripts s = [] ->
  transcriptBuffer s = [] ->
  let final := processBufferedTranscripts true now (deliver arrivals s) in
  Permutation (map Transcript.sequence_id (transcripts final))
    (map Some
       (nodup Z.eq_dec
          (map (fun a => TranscriptUpdate.sequence_id (snd a)) arrivals)))
  /\ StronglySorted strictly_before (transcripts final)
  /\ transcriptBuffer final = [].
Proof.
  intros Hlist Hbuf final.
  set (delivered := deliver arrivals s).
  assert (BufferOk (transcriptBuffer delivered)) as Hok.
  { apply BufferOk_deliver. rewrite Hbuf. apply BufferOk_nil. }
  set (batch := allNewTranscripts
                  (flush true now (transcriptBuffer delivered)
                     (lastProcessedSequence delivered))).
  destruct (batch_ids true now _ (lastProcessedSequence delivered) Hok)
    as [Hnd Hdef]. fold batch in Hnd, Hdef.
  assert (transcripts final = merge batch []) as Hfinal.
  { unfold final. rewrite transcripts_processBufferedTranscripts.
    fold delivered batch. unfold delivered.
    now rewrite transcripts_deliver, Hlist. }
  assert (Permutation batch (JS.values (transcriptBuffer delivered))) as Hbatch.
  { pose proof (flush_conservation true now _
                  (lastProcessedSequence delivered) (proj1 Hok)) as Hcons.
    cbv zeta in Hcons. fold batch in Hcons.
    rewrite flush_remaining_nil in Hcons by reflexivity.
    simpl in Hcons. now rewrite app_nil_r in Hcons. }
  pose proof (merge_into_empty batch Hdef) as Hmerge.
  split; [|split].
  - rewrite Hfinal.
    eapply Permutation_trans; [apply Permutation_map, Hmerge|].
    eapply Permutation_trans; [apply Permutation_map, Hbatch|].
    rewrite BufferOk_ids by exact Hok. apply Permutation_map.
    apply NoDup_Permutation; [apply Hok | apply NoDup_nodup |].
    intros i. unfold delivered. rewrite keys_deliver, nodup_In, Hbuf. simpl.
    tauto.
  - rewrite Hfinal. apply sorted_strict.
    + apply merge_sorted. constructor.
    + eapply Permutation_NoDup;
        [apply Permutation_map, Permutation_sym, Hmerge | exact Hnd].
    + eapply Permutation_Forall; [apply Permutation_sym, Hmerge | exact Hdef].
  - unfold final. rewrite transcriptBuffer_processBufferedTranscripts.
    apply flush_remaining_nil. reflexivity.
Qed.

Lemma arrivals_then_force_flush_witness :
  let final :=
    processBufferedTranscripts true 1005
      (deliver [(1000, sampleUpdate 3 "c" 30); (1001, sampleUpdate 1 "a" 10);
                (1002, sampleUpdate 3 "c again" 30);
                (1003, sampleUpdate 2 "b" 20)] initial) in
  Permutation (map Transcript.sequence_id (transcripts final))
    [Some 1; Some 3; Some 2]
  /\ StronglySorted strictly_before (transcripts final)
  /\ transcriptBuffer final = [].
Proof.
  apply (arrivals_then_force_flush
           [(1000, sampleUpdate 3 "c" 30); (1001, sampleUpdate 1 "a" 10);
            (1002, sampleUpdate 3 "c again" 30);
            (1003, sampleUpdate 2 "b" 20)] 1005 initial); reflexivity.
Defined.

(** ** Arrivals interleaved with flushes *)

Lemma merge_ids batch prev x :
  In x (map Transcript.sequence_id (merge batch prev)) <->
  In x (map Transcript.sequence_id prev)
  \/ (x <> None /\ In x (map Transcript.sequence_id batch)).
Proof.
  assert (In x (map Transcript.sequence_id (merge batch prev)) <->
          In x (map Transcript.sequence_id
                  (prev ++ filter (isNew (existingSequenceIds prev)) batch)))
    as ->.
  { split; apply Permutation_in, Permutation_map;
      [|apply Permutation_sym]; apply merge_Permutation. }
  rewrite map_app, in_app_iff. split.
  - intros [H|H]; [now left|]. right.
    apply in_map_iff in H as [t [<- Ht]]. apply filter_In in Ht as [Ht Hnew].
    apply isNew_true in Hnew as [i [Hi _]]. split; [congruence|].
    now apply in_map.
  - intros [H|[Hx H]]; [now left|].
    apply in_map_iff in H as [t [<- Ht]].
    destruct (isNew (existingSequenceIds prev) t) eqn:Hnew.
    + right. apply in_map, filter_In. now split.
    + left. unfold isNew in Hnew.
      destruct (Transcript.sequence_id t) as [i|]; [|contradiction].
      apply negb_false_iff, existsb_eqb_In in Hnew.
      now apply existingSequenceIds_In.
Qed.

Lemma merge_defined batch prev :
  Forall (fun t => Transcript.sequence_id t <> None) prev ->
  Forall (fun t => Transcript.sequence_id t <> None) (merge batch prev).
Proof.
  intros H. eapply Permutation_Forall;
    [apply Permutation_sym, merge_Permutation|].
  apply Forall_app. split; [exact H|].
  rewrite Forall_forall. intros t Ht. apply filter_In in Ht as [_ Hnew].
  apply isNew_true in Hnew as [i [Hi _]]. congruence.
Qed.

Lemma flush_ids forceFlush now s i :
  BufferOk (transcriptBuffer s) ->
  let f := flush forceFlush now (transcriptBuffer s) (lastProcessedSequence s) in
  In i (JS.keys (transcriptBuffer s)) <->
  In (Some i) (map Transcript.sequence_id (allNewTranscripts f))
  \/ In i (JS.keys (remaining f)).
Proof.
  intros Hok f.
  pose proof (BufferOk_processBufferedTranscripts forceFlush now s Hok) as Hok'.
  rewrite transcriptBuffer_processBufferedTranscripts in Hok'. fold f in Hok'.
  pose proof (flush_conservation forceFlush now _ (lastProcessedSequence s)
                (proj1 Hok)) as Hcons.
  cbv zeta in Hcons. fold f in Hcons.
  apply (Permutation_map Transcript.sequence_id) in Hcons.
  rewrite map_app, !BufferOk_ids in Hcons by assumption.
  assert (forall l, In (Some i) (map Some l) <-> In i l) as Hsome.
  { intros l. rewrite in_map_iff. split.
    - now intros [j [[= ->] H]].
    - intros H. now exists i. }
  rewrite <- (Hsome (JS.keys (transcriptBuffer s))),
          <- (Hsome (JS.keys (remaining f))), <- in_app_iff.
  split; apply Permutation_in; [apply Permutation_sym|]; exact Hcons.
Qed.

Lemma Reassembled_handle ids s e :
  Reassembled ids s -> Reassembled (ids ++ arrivedIds [e]) (handle s e).
Proof.
  intros [Hbuf [Hlist [Hdef Hids]]].
  assert (forall forceFlush now,
             Reassembled (ids ++ [])
               (processBufferedTranscripts forceFlush now s)) as Hflush.
  { intros forceFlush now. rewrite app_nil_r.
    pose proof (batch_ids forceFlush now _ (lastProcessedSequence s) Hbuf)
      as [Hnd Hsome].
    split; [now apply BufferOk_processBufferedTranscripts|].
    rewrite transcripts_processBufferedTranscripts,
      transcriptBuffer_processBufferedTranscripts.
    split; [now apply merge_ok|]. split; [now apply merge_defined|].
    intros i. rewrite Hids, merge_ids, (flush_ids forceFlush now s i Hbuf).
    cbv zeta. intuition congruence. }
  destruct e as [now update|now|now]; simpl.
  - split; [now apply BufferOk_onTranscriptUpdate|].
    assert (transcripts (onTranscriptUpdate now update s) = transcripts s)
      as -> by (unfold onTranscriptUpdate; now destruct (JS.has _ _)).
    repeat split; try assumption; try apply Hlist.
    + rewrite in_app_iff, keys_onTranscriptUpdate, Hids. simpl.
      intuition congruence.
    + rewrite in_app_iff, keys_onTranscriptUpdate, Hids. simpl.
      intuition congruence.
  - apply Hflush.
  - apply Hflush.
Qed.

Lemma Reassembled_run events ids s :
  Reassembled ids s -> Reassembled (ids ++ arrivedIds events) (run events s).
Proof.
  revert ids s. induction events as [|e events IH]; intros ids s H; simpl.
  - now rewrite app_nil_r.
  - apply Reassembled_handle with (e := e) in H. apply IH in H.
    unfold arrivedIds in *. simpl in *.
    now rewrite app_nil_r, <- app_assoc in H.
Qed.

(** X6. Whatever the interleaving of arrivals, timer flushes and forced
    flushes, from an empty list and an empty buffer, once a forced flush
    has run the list holds each arrived sequence id exactly once, in strict
    (chunk start time, sequence id) order, and the buffer is empty. *)
Lemma reassembly_any_interleaving events now s :
  transcripts s = [] ->
  transcriptBuffer s = [] ->
  let final := flushBuffer now (run events s) in
  Permutation (map Transcript.sequence_id (transcripts final))
    (map Some (nodup Z.eq_dec (arrivedIds events)))
  /\ StronglySorted strictly_before (transcripts final)
  /\ transcriptBuffer final = [].
Proof.
  intros Hlist Hbuf final.
  assert (Reassembled [] s) as H0.
  { unfold Reassembled, TranscriptListOk. rewrite Hlist, Hbuf. simpl.
    repeat split; try constructor; try tauto. }
  apply (Reassembled_run (events ++ [FinalFlush now])) in H0.
  unfold run in H0. rewrite fold_left_app in H0. simpl in H0.
  fold (run events s) in H0. fold final in H0.
  unfold arrivedIds in H0. rewrite flat_map_app in H0. simpl in H0.
  rewrite app_nil_r in H0. fold (arrivedIds events) in H0.
  destruct H0 as [_ [[Hsorted Hnd] [Hdef Hids]]].
  assert (transcriptBuffer final = []) as Hempty.
  { unfold final, flushBuffer.
    rewrite transcriptBuffer_processBufferedTranscripts.
    apply flush_remaining_nil. reflexivity. }
  split; [|split; [now apply sorted_strict | exact Hempty]].
  apply NoDup_Permutation.
  - exact Hnd.
  - apply NoDup_map_Some, NoDup_nodup.
  - intros [i|].
    + split.
      * intros H. apply in_map, nodup_In, Hids. now left.
      * intros H. apply in_map_iff in H as [j [[= ->] H]].
        apply nodup_In, Hids in H.
        rewrite Hempty in H. simpl in H. tauto.
    + split.
      * intros H. apply in_map_iff in H as [t [Ht Hin]].
        rewrite Forall_forall in Hdef. now apply Hdef in Hin.
      * intros H. apply in_map_iff in H as [j [[=] _]].
Qed.

(** ** The summary session *)

(** C1, as the code has it.  The [then] callback of an
    [addIncrementalSummaryChunk] call stores the summary it receives as the
    current summary, whatever meeting the call was made for and whatever the
    current meeting id is; nothing else in the provider changes. *)
Theorem chunk_response_always_applied
    (meeting_id : string) (summary : Summary.SummaryResponse) (s : State) :
  chunkFulfilled meeting_id summary s = setIncrementalSummary (Some summary) s
  /\ incrementalSummary (chunkFulfilled meeting_id summary s) = Some summary
  /\ currentMeetingIdRef (chunkFulfilled meeting_id summary s)
     = currentMeetingIdRef s.
Proof. repeat split. Qed.

(** C1 as stated fails.  The chunk ["a b c"] was sent for ["meeting-1000"];
    the recording stopped, the transcripts were cleared and the meeting
    ["meeting-2000"] started; the summary, cleared by [clearTranscripts], is
    then replaced by the late response for ["meeting-1000"]. *)
Lemma stale_response_applied_counterexample :
  ~ (forall (M1 M2 text_chunk : string) (summary : Summary.SummaryResponse)
            (s : State),
       In (addIncrementalSummaryChunk M1 text_chunk) (trace s) ->
       currentMeetingIdRef s = Some M2 ->
       M1 <> M2 ->
       incrementalSummary (chunkFulfilled M1 summary s) = incrementalSummary s).
Proof.
  intros H.
  specialize (H "meeting-1000" "meeting-2000" "a b c"
                sampleSummary meeting2Active)%string.
  discriminate H.
  - right. now left.
  - reflexivity.
  - discriminate.
Qed.

(** C4, as the code has it.  A recording-start signal is ignored while the
    started flag is set.  Once [clearTranscripts] has reset the flag, the
    handler sets the new meeting id, resets the active flag and the pending
    chunks and calls [/start]; the list and the summary were emptied by
    [clearTranscripts].  Neither touches the fragment buffer, the last
    processed sequence id or the fragment counter. *)
Theorem meeting_switch_keeps_buffer (timestamp : Z) (s : State) :
  (summaryStartedRef s = true -> beginMeeting timestamp s = s)
  /\ let switched := beginMeeting timestamp (clearTranscripts s) in
     transcriptBuffer switched = transcriptBuffer s
     /\ lastProcessedSequence switched = lastProcessedSequence s
     /\ transcriptCounter switched = transcriptCounter s
     /\ transcripts switched = []
     /\ incrementalSummary switched = None
     /\ currentMeetingIdRef switched
        = Some ("meeting-" ++ JS.toString timestamp)%string
     /\ phase switched = Starting
     /\ pendingChunksRef switched = []
     /\ trace switched
        = trace s
          ++ [startIncrementalSummary ("meeting-" ++ JS.toString timestamp)].
Proof.
  split.
  - intros H. unfold beginMeeting, onRecordingStarted. now rewrite H.
  - repeat split.
Qed.

Lemma meeting_switch_keeps_buffer_witness :
  beginMeeting 2000 meeting1Flushed = meeting1Flushed
  /\ lastProcessedSequence (beginMeeting 2000 (clearTranscripts meeting1Stopped))
     = 3.
Proof.
  destruct (meeting_switch_keeps_buffer 2000 meeting1Flushed) as [H _].
  destruct (meeting_switch_keeps_buffer 2000 meeting1Stopped)
    as [_ [_ [H' _]]].
  split; [apply H; reflexivity | rewrite H'; reflexivity].
Defined.

(** C4 as stated fails.  The first meeting processed fragments 1 to 3;
    after it stopped and a second recording started, the last processed
    sequence id is still 3. *)
Lemma meeting_switch_counterexample :
  ~ (forall (timestamp : Z) (s : State),
       summaryStartedRef s = true ->
       let switched := beginMeeting timestamp (clearTranscripts s) in
       transcriptBuffer switched = []
       /\ lastProcessedSequence switched = 0).
Proof.
  intros H. destruct (H 2000 meeting1Stopped eq_refl) as [_ Hlast].
  discriminate Hlast.
Qed.

Lemma sendChunks_pending chunks meetingId s :
  truthy (currentMeetingIdRef s) = Some meetingId ->
  summarySessionActiveRef s = false ->
  sendChunks chunks s = set_pendingChunksRef (pendingChunksRef s ++ chunks) s.
Proof.
  revert s. induction chunks as [|c chunks IH]; intros s Hid Hactive.
  - simpl. rewrite app_nil_r. now destruct s.
  - unfold sendChunks in *. simpl. unfold sendChunk at 2.
    rewrite Hid, Hactive. simpl. rewrite IH by assumption.
    simpl. now rewrite <- app_assoc.
Qed.




(** C7, as the code has it.  When the recording stops and [/end] has
    settled, with success or not, the flags of the session and the pending
    chunks are as they were before the stop signal: the handler does not
    write them.  A failure of [/end] is logged with [console.error] and
    nothing else happens; without a meeting id no call is made. *)
Theorem stop_leaves_session (ok : bool) (s : State) :
  let stopped := stopRecording ok s in
  phase stopped = phase s
  /\ summaryStartedRef stopped = summaryStartedRef s
  /\ summarySessionActiveRef stopped = summarySessionActiveRef s
  /\ pendingChunksRef stopped = pendingChunksRef s
  /\ trace stopped
     = trace s
       ++ match truthy (currentMeetingIdRef s) with
          | Some meetingId =>
              endIncrementalSummary meetingId
              :: (if ok then [] else [console_error EndSessionFailed])
          | None => []
          end.
Proof.
  unfold stopRecording, onRecordingStopped, endSettled, phase.
  destruct (truthy (currentMeetingIdRef s)); [destruct ok|]; simpl;
    rewrite <- ?app_assoc, ?app_nil_r; repeat split.
Qed.

(** C7 as stated fails.  [/start] failed for the first meeting, so the
    chunk ["a b c"] is pending and the started flag is set; after the stop
    signal and the settling of [/end] the phase is still [Starting] and the
    chunk is still pending. *)
Lemma stop_counterexample :
  ~ (forall (ok : bool) (meetingId : string) (s : State),
       truthy (currentMeetingIdRef s) = Some meetingId ->
       phase (stopRecording ok s) = Inactive
       /\ pendingChunksRef (stopRecording ok s) = []).
Proof.
  intros H.
  destruct (H false "meeting-1000"%string meeting1Backlog eq_refl)
    as [Hphase _].
  discriminate Hphase.
Qed.

(** ** The scenarios of the specification, run on the model *)

(** The buffer the listener builds keeps, for each fragment, the clock
    value of its arrival. *)
Lemma arrivalTime_deliver arrivals now s :
  Forall (fun a => 0 <= fst a <= now) arrivals ->
  Forall (fun e => exists arrived,
            arrivalTime (snd e) = Some arrived /\ arrived <= now)
    (transcriptBuffer s) ->
  Forall (fun e => exists arrived,
            arrivalTime (snd e) = Some arrived /\ arrived <= now)
    (transcriptBuffer (deliver arrivals s)).
Proof.
  revert s. induction arrivals as [|[clock update] arrivals IH];
    intros s Hclock Hs; simpl; [exact Hs|].
  inversion Hclock as [|? ? [Hlo Hhi] Hrest]; subst. simpl in *.
  apply IH; [exact Hrest|].
  unfold onTranscriptUpdate.
  destruct (JS.has _ _) eqn:Hhas; [exact Hs|]. simpl.
  unfold JS.set. rewrite Hhas. apply Forall_app. split; [exact Hs|].
  repeat constructor. exists clock. split; [|exact Hhi].
  unfold arrivalTime. simpl. now apply parseInt_id.
Qed.

(** Fragments 3, 1, 2 arrive in this order; the debounced flush returns
    them as 1, 2, 3, all by the sequential run, and the last processed
    sequence id is 3. *)
Example flush_3_1_2 :
  let f := flush false 1005 (transcriptBuffer threeOneTwo)
             (lastProcessedSequence threeOneTwo) in
  map Transcript.sequence_id (allNewTranscripts f) = [Some 1; Some 2; Some 3]
  /\ map Transcript.sequence_id (sequential f) = [Some 1; Some 2; Some 3]
  /\ lastProcessed f = 3
  /\ remaining f = [].
Proof. repeat split. Qed.

(** Three flushes while [/start] has not answered, then the confirmation:
    one chunk call, with the three texts in arrival order. *)
Example backlog_a_b_c :
  let flushed now update s :=
    processBufferedTranscripts false (now + 10)
      (onTranscriptUpdate now update s) in
  trace (startConfirmed "meeting-1000"
           (flushed 1300 (sampleUpdate 3 "c" 30)
              (flushed 1200 (sampleUpdate 2 "b" 20)
                 (flushed 1100 (sampleUpdate 1 "a" 10) meeting1Starting))))
  = [startIncrementalSummary "meeting-1000";
     addIncrementalSummaryChunk "meeting-1000" "a b c"].
Proof. reflexivity. Qed.

(** The sequence ids of a second meeting start at 1 again while the last
    processed sequence id is still 3: fragment 1 of the second meeting is
    not taken by the sequential run but as recent. *)
Example second_meeting_fragment_1 :
  let f := flush false 2110
             (transcriptBuffer
                (onTranscriptUpdate 2100 (sampleUpdate 1 "hello" 5)
                   meeting2Active))
             (lastProcessedSequence meeting2Active) in
  sequential f = []
  /\ map Transcript.text (recentTranscripts f) = ["hello"%string]
  /\ lastProcessed f = 3.
Proof. repeat split. Qed.

(** * Further properties of the provider *)

(** ** The sequence buffer *)

Lemma get_set_new {V} (m : JS.Map V) k v :
  JS.has m k = false -> JS.get (JS.set m k v) k = Some v.
Proof.
  intros H. unfold JS.set. rewrite H. unfold JS.get, JS.has in *.
  induction m as [|[k' v'] m IH]; simpl in *.
  - now rewrite Z.eqb_refl.
  - apply orb_false_iff in H as [Hk Hm]. rewrite Hk. now apply IH.
Qed.

Lemma get_set_other {V} (m : JS.Map V) k k' v :
  JS.has m k = false -> k' <> k -> JS.get (JS.set m k v) k' = JS.get m k'.
Proof.
  intros H Hne. unfold JS.set. rewrite H. clear H. unfold JS.get.
  induction m as [|[k0 v0] m IH]; simpl.
  - apply Z.eqb_neq in Hne. rewrite Z.eqb_sym in Hne. now rewrite Hne.
  - destruct (k0 =? k'); [reflexivity | exact IH].
Qed.

(** X1. The sequential run of a flush takes exactly the fragments whose
    sequence ids follow the last processed one without a gap: their ids
    are [last + 1], [last + 2], ... in this order, the last processed
    sequence id advances by their number, every id up to the new value was
    in the buffer, and the next id is not. *)
Theorem sequential_run_is_maximal_prefix
    (forceFlush : bool) (now : Z) (buffer : JS.Map Transcript.t) (last : Z) :
  BufferOk buffer ->
  let f := flush forceFlush now buffer last in
  map Transcript.sequence_id (sequential f)
  = map (fun i => Some (last + 1 + Z.of_nat i))
      (seq 0 (List.length (sequential f)))
  /\ lastProcessed f = last + Z.of_nat (List.length (sequential f))
  /\ (forall i, last < i <= lastProcessed f -> JS.has buffer i = true)
  /\ JS.has buffer (lastProcessed f + 1) = false.
Proof.
  intros [Hnd Hall] f.
  destruct (sequential_run (List.length buffer) [] buffer last)
    as [[acc' rest] last'] eqn:Hrun.
  pose proof (flush_unfold forceFlush now _ _ _ _ _ Hrun) as Hf. fold f in Hf.
  destruct (sequential_run_spec _ _ _ _ _ _ _ Hnd Hrun)
    as [taken [Hacc [Hperm [Hkeys Hlast]]]].
  pose proof (sequential_run_complete _ _ _ _ _ _ _ (le_n _) Hrun) as Hnext.
  simpl in Hacc. subst acc'. rewrite Hf. simpl.
  assert (List.length (JS.values taken) = List.length taken) as Hlen
    by apply length_map.
  assert (forall k, In k (JS.keys buffer) <->
                    In k (JS.keys taken) \/ In k (JS.keys rest)) as Hin.
  { intros k. unfold JS.keys. rewrite <- in_app_iff, <- map_app.
    split; apply Permutation_in, Permutation_map;
      [|apply Permutation_sym]; exact Hperm. }
  rewrite Hlen. repeat split.
  - assert (map Transcript.sequence_id (JS.values taken)
            = map Some (JS.keys taken)) as ->.
    { unfold JS.values, JS.keys. rewrite !map_map. apply map_ext_in.
      intros e He. rewrite Forall_forall in Hall. apply Hall.
      eapply Permutation_in; [apply Permutation_sym, Hperm|].
      apply in_or_app. now left. }
    rewrite Hkeys, map_map. reflexivity.
  - exact Hlast.
  - intros i Hi. apply has_In, Hin. left. rewrite Hkeys.
    apply in_map_iff. exists (Z.to_nat (i - last - 1)). split; [lia|].
    apply in_seq. lia.
  - apply not_true_iff_false. intros H. apply has_In, Hin in H.
    destruct H as [H|H].
    + rewrite Hkeys in H. apply in_map_iff in H as [j [Hj Hjn]].
      apply in_seq in Hjn. lia.
    + apply has_In in H. congruence.
Qed.

Lemma sequential_run_is_maximal_prefix_witness :
  map Transcript.sequence_id
    (sequential (flush false 1005 (transcriptBuffer threeOneTwo) 0))
  = [Some 1; Some 2; Some 3]
  /\ lastProcessed (flush false 1005 (transcriptBuffer threeOneTwo) 0) = 3.
Proof.
  destruct (sequential_run_is_maximal_prefix false 1005
              (transcriptBuffer threeOneTwo) 0) as [H1 [H2 _]].
  - apply BufferOk_deliver, BufferOk_nil.
  - split; [exact H1 | exact H2].
Defined.

(** X2. A flush neither loses nor repeats a fragment: when each sequence
    id is buffered once, the fragments of the batch together with those
    still buffered are the fragments that were buffered, each once. *)
Theorem flush_loses_nothing
    (forceFlush : bool) (now : Z) (buffer : JS.Map Transcript.t) (last : Z) :
  NoDup (JS.keys buffer) ->
  let f := flush forceFlush now buffer last in
  Permutation (allNewTranscripts f ++ JS.values (remaining f))
    (JS.values buffer)
  /\ (List.length (allNewTranscripts f) + List.length (remaining f)
      = List.length buffer)%nat.
Proof.
  intros Hnd f.
  pose proof (flush_conservation forceFlush now buffer last Hnd) as H.
  cbv zeta in H. fold f in H. split; [exact H|].
  apply Permutation_length in H.
  rewrite length_app in H. unfold JS.values in H. now rewrite !length_map in H.
Qed.

Lemma flush_loses_nothing_witness :
  (List.length
     (allNewTranscripts (flush false 1001 (transcriptBuffer threeOneTwo) 0))
   + List.length (remaining (flush false 1001 (transcriptBuffer threeOneTwo) 0))
   = 3)%nat.
Proof.
  destruct (flush_loses_nothing false 1001 (transcriptBuffer threeOneTwo) 0)
    as [_ H].
  - apply BufferOk_deliver, BufferOk_nil.
  - exact H.
Defined.

(** X3. The listener keeps the first arrival of a sequence id: a new id
    is buffered under its own key with the text and chunk start time of the
    update, the other entries are untouched and the fragment counter goes
    up by one; a later update with the same id, whatever it carries,
    changes nothing as long as the first one is buffered. *)
Theorem listener_first_arrival_wins
    (now1 now2 : Z) (first second : TranscriptUpdate.t) (s : State) :
  JS.has (transcriptBuffer s) (TranscriptUpdate.sequence_id first) = false ->
  TranscriptUpdate.sequence_id second = TranscriptUpdate.sequence_id first ->
  let s1 := onTranscriptUpdate now1 first s in
  onTranscriptUpdate now2 second s1 = s1
  /\ (exists t,
        JS.get (transcriptBuffer s1) (TranscriptUpdate.sequence_id first)
        = Some t
        /\ Transcript.text t = TranscriptUpdate.text first
        /\ Transcript.sequence_id t = Some (TranscriptUpdate.sequence_id first)
        /\ Transcript.chunk_start_time t
           = TranscriptUpdate.chunk_start_time first)
  /\ (forall k, k <> TranscriptUpdate.sequence_id first ->
                JS.get (transcriptBuffer s1) k = JS.get (transcriptBuffer s) k)
  /\ transcriptCounter s1 = transcriptCounter s + 1.
Proof.
  intros Hnew Hsame s1.
  assert (JS.has (transcriptBuffer s1) (TranscriptUpdate.sequence_id first)
          = true) as Hhas.
  { apply has_In, keys_onTranscriptUpdate. now right. }
  split; [|split; [|split]].
  - unfold onTranscriptUpdate at 1. now rewrite Hsame, Hhas.
  - unfold s1, onTranscriptUpdate. rewrite Hnew. simpl.
    eexists. split; [now apply get_set_new|]. repeat split.
  - intros k Hk. unfold s1, onTranscriptUpdate. rewrite Hnew. simpl.
    now apply get_set_other.
  - unfold s1, onTranscriptUpdate. now rewrite Hnew.
Qed.

Lemma listener_first_arrival_wins_witness :
  onTranscriptUpdate 1500 (sampleUpdate 5 "five again" 41) onlyFive = onlyFive.
Proof.
  destruct (listener_first_arrival_wins 1000 1500 (sampleUpdate 5 "five" 40)
              (sampleUpdate 5 "five again" 41) initial eq_refl eq_refl)
    as [H _].
  exact H.
Defined.

Lemma toString_negative n : n < 0 -> exists r, JS.toString n = String "-" r.
Proof.
  intros H. destruct n as [|p|p]; try lia. unfold JS.toString. simpl.
  eexists. reflexivity.
Qed.

(** X4. The id the listener gives a fragment holds the clock of its
    arrival: for a fragment buffered at a clock value that is not negative,
    the age computed by a flush at clock [now] is [now] minus that value,
    whatever the counter was.  A negative clock value is not read back: the
    id then starts with a dash, the age is [NaN], and the fragment is
    neither stale nor recent. *)
Theorem buffered_fragment_age
    (arrived now : Z) (update : TranscriptUpdate.t) (s : State)
    (t : Transcript.t) :
  JS.has (transcriptBuffer s) (TranscriptUpdate.sequence_id update) = false ->
  JS.get (transcriptBuffer (onTranscriptUpdate arrived update s))
    (TranscriptUpdate.sequence_id update) = Some t ->
  (0 <= arrived -> transcriptAge now t = Some (now - arrived))
  /\ (arrived < 0 ->
      transcriptAge now t = None /\ isTaken false now t = false).
Proof.
  intros Hnew Hget.
  assert (Transcript.id t
          = (JS.toString arrived ++ "-"
             ++ JS.toString (transcriptCounter s))%string) as Hid.
  { unfold onTranscriptUpdate in Hget. rewrite Hnew in Hget. simpl in Hget.
    rewrite get_set_new in Hget by exact Hnew. now injection Hget as <-. }
  split.
  - intros Hpos. unfold transcriptAge. rewrite Hid, parseInt_id by exact Hpos.
    reflexivity.
  - intros Hneg. destruct (toString_negative arrived Hneg) as [r Hr].
    assert (transcriptAge now t = None) as Hage.
    { unfold transcriptAge. rewrite Hid, Hr. reflexivity. }
    split; [exact Hage|].
    unfold isTaken, isStale, isRecent. now rewrite Hage.
Qed.

Lemma buffered_fragment_age_witness :
  exists t,
    JS.get (transcriptBuffer onlyFive) 5 = Some t
    /\ transcriptAge 1234 t = Some 234.
Proof.
  eexists. split; [reflexivity|].
  destruct (buffered_fragment_age 1000 1234 (sampleUpdate 5 "five" 40) initial
              _ eq_refl eq_refl) as [H _].
  apply H. lia.
Defined.

Lemma isTaken_false_iff now t :
  isTaken false now t = false <->
  arrivalTime t = None
  \/ exists arrived, arrivalTime t = Some arrived /\ now < arrived.
Proof.
  unfold isTaken, isStale, isRecent, transcriptAge, arrivalTime.
  unfold staleThreshold, recentThreshold.
  destruct (JS.parseInt _) as [a|]; simpl.
  - destruct (Z.gtb_spec (now - a) 100) as [Hgt|Hle]; simpl.
    + split; [discriminate|].
      intros [E|[b [[= <-] Hb]]]; [discriminate | lia].
    + rewrite <- not_true_iff_false, Z.geb_le. split.
      * intros Hn. right. exists a. split; [reflexivity | lia].
      * intros [E|[b [[= <-] Hb]]]; [discriminate | lia].
  - split; auto.
Qed.

(** X5. What a debounced flush leaves in the buffer: a fragment stays
    exactly when the sequential run did not take it and its id gives no
    arrival time or an arrival time later than the clock of the flush. *)
Theorem debounced_flush_leaves_future_stamped
    (now : Z) (buffer : JS.Map Transcript.t) (last : Z) (e : Z * Transcript.t) :
  NoDup (JS.keys buffer) ->
  In e (remaining (flush false now buffer last)) <->
  In e (afterRun buffer last)
  /\ (arrivalTime (snd e) = None
      \/ exists arrived, arrivalTime (snd e) = Some arrived /\ now < arrived).
Proof.
  intros Hnd. unfold afterRun.
  destruct (sequential_run (List.length buffer) [] buffer last)
    as [[acc' rest] last'] eqn:Hrun.
  rewrite (flush_unfold false now _ _ _ _ _ Hrun). simpl.
  destruct (sequential_run_spec _ _ _ _ _ _ _ Hnd Hrun)
    as [taken [_ [Hperm _]]].
  assert (NoDup (JS.keys rest)) as Hnd'.
  { apply (Permutation_map fst) in Hperm.
    apply (Permutation_NoDup Hperm) in Hnd.
    rewrite map_app in Hnd. now apply NoDup_app_remove_l in Hnd. }
  rewrite filter_In, <- isTaken_false_iff. split.
  - intros [Hin H]. split; [exact Hin|].
    rewrite deletedBy_NoDup in H by assumption. now apply negb_true_iff.
  - intros [Hin H]. split; [exact Hin|].
    rewrite deletedBy_NoDup by assumption. now apply negb_true_iff.
Qed.

Lemma debounced_flush_leaves_future_stamped_witness :
  exists e,
    transcriptBuffer onlyFive = [e]
    /\ In e (remaining (flush false 999 (transcriptBuffer onlyFive) 0)).
Proof.
  eexists. split; [reflexivity|].
  apply debounced_flush_leaves_future_stamped.
  - repeat constructor. intros [].
  - split; [now left|]. right. exists 1000. split; [reflexivity | lia].
Defined.

Lemma reassembly_any_interleaving_witness :
  let final :=
    flushBuffer 1300
      (run [Arrival 1000 (sampleUpdate 2 "b" 20); TimerFired 1010;
            Arrival 1100 (sampleUpdate 2 "b again" 20);
            Arrival 1101 (sampleUpdate 1 "a" 10); TimerFired 1111;
            Arrival 1200 (sampleUpdate 3 "c" 30)] initial) in
  Permutation (map Transcript.sequence_id (transcripts final))
    [Some 2; Some 1; Some 3]
  /\ StronglySorted strictly_before (transcripts final)
  /\ transcriptBuffer final = [].
Proof.
  apply (reassembly_any_interleaving
           [Arrival 1000 (sampleUpdate 2 "b" 20); TimerFired 1010;
            Arrival 1100 (sampleUpdate 2 "b again" 20);
            Arrival 1101 (sampleUpdate 1 "a" 10); TimerFired 1111;
            Arrival 1200 (sampleUpdate 3 "c" 30)] 1300 initial); reflexivity.
Defined.

(** ** Merging *)

Lemma merge_known batch prev :
  Forall (fun t => forall i, Transcript.sequence_id t = Some i ->
                             In (Some i) (map Transcript.sequence_id prev))
    batch ->
  merge batch prev = prev.
Proof.
  intros H. unfold merge. rewrite filter_nil; [reflexivity|].
  intros t Ht. apply not_true_iff_false. intros Hnew.
  apply isNew_true in Hnew as [i [Hi Hnot]]. apply Hnot.
  apply existingSequenceIds_In. rewrite Forall_forall in H. now apply (H t).
Qed.

(** X7. A fragment delivered again after its sequence id went into the
    list is buffered again, and the next flush does not list it a second
    time, but it does send its text to the summary session once more: when
    every buffered id is already listed, a forced flush leaves the list as
    it is, empties the buffer, and (the session being active) makes one
    chunk call with the texts of the buffered fragments. *)
Theorem redelivered_fragments_resent
    (now : Z) (meetingId : string) (s : State) :
  BufferOk (transcriptBuffer s) ->
  transcriptBuffer s <> [] ->
  Forall (fun e => In (Some (fst e))
                     (map Transcript.sequence_id (transcripts s)))
    (transcriptBuffer s) ->
  truthy (currentMeetingIdRef s) = Some meetingId ->
  summarySessionActiveRef s = true ->
  let batch := allNewTranscripts
                 (flush true now (transcriptBuffer s)
                    (lastProcessedSequence s)) in
  let s' := processBufferedTranscripts true now s in
  transcripts s' = transcripts s
  /\ transcriptBuffer s' = []
  /\ Permutation batch (JS.values (transcriptBuffer s))
  /\ trace s'
     = trace s
       ++ [addIncrementalSummaryChunk meetingId
             (String.concat " " (map Transcript.text batch))].
Proof.
  intros Hok Hne Hlisted Hid Hactive batch s'.
  assert (Permutation batch (JS.values (transcriptBuffer s))) as Hperm.
  { pose proof (flush_conservation true now _ (lastProcessedSequence s)
                  (proj1 Hok)) as Hcons.
    cbv zeta in Hcons. fold batch in Hcons.
    rewrite flush_remaining_nil in Hcons by reflexivity.
    simpl in Hcons. now rewrite app_nil_r in Hcons. }
  assert (merge batch (transcripts s) = transcripts s) as Hmerge.
  { apply merge_known. rewrite Forall_forall. intros t Ht i Hi.
    apply (Permutation_in _ Hperm) in Ht.
    apply in_map_iff in Ht as [e [<- He]].
    rewrite Forall_forall in Hlisted. specialize (Hlisted e He).
    destruct Hok as [_ Hkey]. rewrite Forall_forall in Hkey.
    rewrite (Hkey e He) in Hi. now injection Hi as <-. }
  split; [|split; [|split]].
  - unfold s'. rewrite transcripts_processBufferedTranscripts.
    fold batch. exact Hmerge.
  - unfold s'. rewrite transcriptBuffer_processBufferedTranscripts.
    apply flush_remaining_nil. reflexivity.
  - exact Hperm.
  - unfold s', processBufferedTranscripts. fold batch.
    destruct batch as [|t batch'] eqn:Hb.
    + apply Permutation_nil in Hperm.
      destruct (transcriptBuffer s); [contradiction | discriminate].
    + unfold sendChunk. simpl. rewrite Hid, Hactive. reflexivity.
Qed.

Lemma redelivered_fragments_resent_witness :
  let s := onTranscriptUpdate 1200 (sampleUpdate 2 "b again" 20)
             meeting1Flushed in
  transcripts (processBufferedTranscripts true 1300 s) = transcripts s
  /\ trace (processBufferedTranscripts true 1300 s)
     = trace s ++ [addIncrementalSummaryChunk "meeting-1000" "b again"].
Proof.
  destruct (redelivered_fragments_resent 1300 "meeting-1000"
              (onTranscriptUpdate 1200 (sampleUpdate 2 "b again" 20)
                 meeting1Flushed)) as [H1 [_ [_ H2]]].
  - apply BufferOk_onTranscriptUpdate. split; constructor.
  - discriminate.
  - constructor; [|constructor]. right. now left.
  - reflexivity.
  - reflexivity.
  - split; [exact H1 | exact H2].
Defined.

(** ** The summary session over the life of the provider *)

Lemma truthy_meeting timestamp :
  truthy (Some ("meeting-" ++ JS.toString timestamp)%string)
  = Some ("meeting-" ++ JS.toString timestamp)%string.
Proof. reflexivity. Qed.

(** X8. When [/start] fails the backlog is never sent.  After the failure
    (logged and shown in a toast) a further recording-start signal is
    ignored, the chunks handed over are queued without any call, and when
    the user clears the transcripts and starts the next recording the
    queue is emptied: the only call made is [/start] for the new meeting. *)
Theorem failed_start_backlog_never_sent
    (timestamp timestamp' : Z) (message : string) (chunks : list string)
    (s : State) :
  summaryStartedRef s = false ->
  let meetingId := ("meeting-" ++ JS.toString timestamp)%string in
  let meetingId' := ("meeting-" ++ JS.toString timestamp')%string in
  let failed := startFailed message (beginMeeting timestamp s) in
  let waiting := sendChunks chunks failed in
  let next :=
    startConfirmed meetingId' (beginMeeting timestamp' (clearTranscripts waiting)) in
  trace failed
  = trace s ++ [startIncrementalSummary meetingId; console_error InitFailed;
                toast_error message]
  /\ phase failed = Starting
  /\ beginMeeting timestamp' waiting = waiting
  /\ pendingChunksRef waiting = chunks
  /\ trace waiting = trace failed
  /\ trace next = trace failed ++ [startIncrementalSummary meetingId']
  /\ pendingChunksRef next = [].
Proof.
  intros Hs meetingId meetingId' failed waiting next.
  assert (failed
          = emit (toast_error message)
              (emit (console_error InitFailed)
                 (callStart meetingId
                    (startSession
                       (set_summaryStartedRef true
                          (setCurrentMeetingId (Some meetingId) s))))))
    as Hfailed.
  { unfold failed, beginMeeting, onRecordingStarted. now rewrite Hs. }
  assert (waiting = set_pendingChunksRef chunks failed) as Hw.
  { unfold waiting.
    rewrite (sendChunks_pending chunks meetingId);
      rewrite Hfailed; reflexivity. }
  unfold next. rewrite Hw, Hfailed. simpl. rewrite <- !app_assoc.
  repeat split.
Qed.

Lemma failed_start_backlog_never_sent_witness :
  trace (startConfirmed "meeting-2000"
           (beginMeeting 2000
              (clearTranscripts
                 (sendChunks ["a"; "b"]%string
                    (startFailed "no model" (beginMeeting 1000 initial))))))
  = [startIncrementalSummary "meeting-1000"; console_error InitFailed;
     toast_error "no model"; startIncrementalSummary "meeting-2000"].
Proof.
  destruct (failed_start_backlog_never_sent 1000 2000 "no model"
              ["a"; "b"]%string initial eq_refl)
    as [_ [_ [_ [_ [_ [H _]]]]]].
  exact H.
Defined.

Lemma summaryStartedRef_sendChunk c s :
  summaryStartedRef (sendChunk c s) = summaryStartedRef s.
Proof.
  unfold sendChunk. destruct (truthy _); [|reflexivity].
  destruct (summarySessionActiveRef s); reflexivity.
Qed.

Lemma summaryStartedRef_step s e :
  isClear e = false -> summaryStartedRef s = true ->
  summaryStartedRef (step s e) = true.
Proof.
  intros He Hs.
  destruct e as [[now update|now|now]| | | | | | | | | | | |]; simpl;
    try discriminate; try exact Hs.
  - unfold onTranscriptUpdate. now destruct (JS.has _ _).
  - unfold processBufferedTranscripts. destruct (allNewTranscripts _);
      [exact Hs | now rewrite summaryStartedRef_sendChunk].
  - unfold flushBuffer, processBufferedTranscripts.
    destruct (allNewTranscripts _);
      [exact Hs | now rewrite summaryStartedRef_sendChunk].
  - unfold onRecordingStarted. now rewrite Hs.
  - unfold startConfirmed. simpl. now destruct (pendingChunksRef s).
  - unfold onRecordingStopped. now destruct (truthy _).
  - unfold endSettled. now destruct ok.
Qed.

(** X9. Once a recording-start signal has been accepted, the started flag
    stays set whatever happens to the provider (fragments, flushes, the
    answers of the summary service, the stop signal, the end of the
    session), until [clearTranscripts] is called; as long as it is set, a
    recording-start signal changes nothing. *)
Theorem started_flag_until_clear
    (events : list ProviderEvent) (timestamp : Z) (s : State) :
  summaryStartedRef s = true ->
  forallb (fun e => negb (isClear e)) events = true ->
  summaryStartedRef (runProvider events s) = true
  /\ step (runProvider events s) (RecordingStarted timestamp)
     = runProvider events s
  /\ beginMeeting timestamp (runProvider events s) = runProvider events s.
Proof.
  intros Hs Hev.
  assert (summaryStartedRef (runProvider events s) = true) as H.
  { revert s Hs. induction events as [|e events IH]; intros s Hs; simpl.
    - exact Hs.
    - simpl in Hev. apply andb_true_iff in Hev as [He Hev].
      apply IH; [exact Hev|]. apply summaryStartedRef_step; [|exact Hs].
      now apply negb_true_iff. }
  split; [exact H|].
  split; simpl; unfold beginMeeting, onRecordingStarted; now rewrite H.
Qed.

Lemma started_flag_until_clear_witness :
  beginMeeting 3000
    (runProvider [RecordingStopped; EndSettled false; StartFailed "late";
                  Listener (TimerFired 1500); MeetingSaved] meeting1Flushed)
  = runProvider [RecordingStopped; EndSettled false; StartFailed "late";
                 Listener (TimerFired 1500); MeetingSaved] meeting1Flushed.
Proof.
  destruct (started_flag_until_clear
              [RecordingStopped; EndSettled false; StartFailed "late";
               Listener (TimerFired 1500); MeetingSaved] 3000 meeting1Flushed
              eq_refl eq_refl) as [_ [_ H]].
  exact H.
Defined.

Lemma backlog_sendChunk c s :
  (summarySessionActiveRef s = true -> pendingChunksRef s = []) ->
  summarySessionActiveRef (sendChunk c s) = summarySessionActiveRef s
  /\ (summarySessionActiveRef (sendChunk c s) = true ->
      pendingChunksRef (sendChunk c s) = []).
Proof.
  intros H. unfold sendChunk. destruct (truthy _); [|now split].
  destruct (summarySessionActiveRef s) eqn:Ha; simpl; rewrite Ha; split;
    try reflexivity; try discriminate.
  intros _. now apply H.
Qed.

Lemma backlog_step s e :
  (summarySessionActiveRef s = true -> pendingChunksRef s = []) ->
  summarySessionActiveRef (step s e) = true -> pendingChunksRef (step s e) = [].
Proof.
  intros H.
  assert (forall forceFlush now,
             summarySessionActiveRef
               (processBufferedTranscripts forceFlush now s) = true ->
             pendingChunksRef (processBufferedTranscripts forceFlush now s)
             = []) as Hflush.
  { intros forceFlush now. unfold processBufferedTranscripts.
    destruct (allNewTranscripts _); [exact H|]. now apply backlog_sendChunk. }
  destruct e as [[now update|now|now]| | | | | | | | | | | |]; simpl;
    try exact H; try apply Hflush.
  - unfold onTranscriptUpdate. now destruct (JS.has _ _).
  - unfold onRecordingStarted. now destruct (summaryStartedRef s).
  - discriminate.
  - unfold startConfirmed. simpl.
    destruct (pendingChunksRef s) eqn:E; simpl; intros _;
      [exact E | reflexivity].
  - unfold onRecordingStopped. now destruct (truthy _).
  - unfold endSettled. now destruct ok.
Qed.

(** X10. No chunk waits in the backlog of an active session: from the
    mounting of the provider on, whatever happens to it and in whatever
    order, whenever the active flag is set the pending chunks are empty. *)
Theorem active_session_has_no_backlog (events : list ProviderEvent) :
  summarySessionActiveRef (runProvider events initial) = true ->
  pendingChunksRef (runProvider events initial) = [].
Proof.
  assert (forall s,
             (summarySessionActiveRef s = true -> pendingChunksRef s = []) ->
             summarySessionActiveRef (runProvider events s) = true ->
             pendingChunksRef (runProvider events s) = []) as H.
  { induction events as [|e events IH]; intros s Hs; simpl; [exact Hs|].
    apply IH. now apply backlog_step. }
  apply H. discriminate.
Qed.

Lemma active_session_has_no_backlog_witness :
  pendingChunksRef
    (runProvider [RecordingStarted 1000; SessionReset;
                  Listener (Arrival 1100 (sampleUpdate 1 "a" 10));
                  Listener (TimerFired 1110); StartCalled "meeting-1000";
                  StartConfirmed "meeting-1000"] initial) = [].
Proof.
  apply (active_session_has_no_backlog
           [RecordingStarted 1000; SessionReset;
            Listener (Arrival 1100 (sampleUpdate 1 "a" 10));
            Listener (TimerFired 1110); StartCalled "meeting-1000";
            StartConfirmed "meeting-1000"]).
  reflexivity.
Defined.

(** X11. Without a current meeting id nothing reaches the summary
    session: once [markMeetingAsSaved] has cleared the id, a flush still
    merges its batch into the transcript list, but it makes no call and
    queues no chunk, whether the session is active or not. *)
Theorem no_meeting_id_no_chunk (forceFlush : bool) (now : Z) (s : State) :
  let saved := markMeetingAsSaved s in
  let s' := processBufferedTranscripts forceFlush now saved in
  trace s' = trace s
  /\ pendingChunksRef s' = pendingChunksRef s
  /\ transcripts s'
     = merge (allNewTranscripts
                (flush forceFlush now (transcriptBuffer s)
                   (lastProcessedSequence s)))
         (transcripts s)
  /\ snd (onRecordingStopped s') = s'.
Proof.
  intros saved s'. unfold s'.
  rewrite transcripts_processBufferedTranscripts.
  unfold processBufferedTranscripts, onRecordingStopped. simpl.
  destruct (allNewTranscripts _); repeat split.
Qed.

(** X12. The stop signal does not close the gate of the summary session:
    when the session is active, a chunk flushed after the recording has
    stopped and [/end] has settled is still sent, in a call for the meeting
    that was ended, after the [/end] call. *)
Theorem chunk_after_stop_still_sent
    (ok : bool) (textChunk meetingId : string) (s : State) :
  truthy (currentMeetingIdRef s) = Some meetingId ->
  summarySessionActiveRef s = true ->
  trace (sendChunk textChunk (stopRecording ok s))
  = trace s
    ++ endIncrementalSummary meetingId
       :: (if ok then [] else [console_error EndSessionFailed])
    ++ [addIncrementalSummaryChunk meetingId textChunk].
Proof.
  intros Hid Hactive.
  unfold stopRecording, onRecordingStopped, endSettled, sendChunk.
  rewrite Hid. destruct ok; simpl; rewrite Hid, Hactive; simpl;
    now rewrite <- !app_assoc.
Qed.

Lemma chunk_after_stop_still_sent_witness :
  trace (sendChunk "d" meeting1Stopped)
  = [startIncrementalSummary "meeting-1000";
     addIncrementalSummaryChunk "meeting-1000" "a b c";
     endIncrementalSummary "meeting-1000";
     addIncrementalSummaryChunk "meeting-1000" "d"].
Proof.
  apply (chunk_after_stop_still_sent true "d" "meeting-1000" meeting1Flushed);
    reflexivity.
Defined.

(** ** [addTranscript] *)

(** X13. [addTranscript] takes an update once: calling it again with the
    same update, at whatever clock, changes nothing.  When no entry of the
    list has the text and the timestamp of the update, the first call adds
    exactly one entry, which carries the text, timestamp and sequence id of
    the update, and keeps all the others; when an entry has them, the
    first call changes nothing either. *)
Theorem addTranscript_once
    (now now' : Z) (update : TranscriptUpdate.t) (s : State) :
  addTranscript now' update (addTranscript now update s)
  = addTranscript now update s
  /\ (existsb (sameTextAndTimestamp update) (transcripts s) = true ->
      addTranscript now update s = s)
  /\ (existsb (sameTextAndTimestamp update) (transcripts s) = false ->
      exists t,
        Permutation (transcripts (addTranscript now update s))
          (t :: transcripts s)
        /\ Transcript.text t = TranscriptUpdate.text update
        /\ Transcript.timestamp t = TranscriptUpdate.timestamp update
        /\ Transcript.sequence_id t
           = Some (TranscriptUpdate.sequence_id update)).
Proof.
  assert (forall n, existsb (sameTextAndTimestamp update)
                      (transcripts (addTranscript n update s)) = true) as Hin.
  { intros n. unfold addTranscript. simpl.
    destruct (existsb _ (transcripts s)) eqn:E; [exact E|].
    apply existsb_exists. eexists. split.
    - eapply Permutation_in; [apply Permutation_sym, sort_Permutation|].
      apply in_or_app. right. now left.
    - unfold sameTextAndTimestamp. simpl. now rewrite !String.eqb_refl. }
  split; [|split].
  - specialize (Hin now). unfold addTranscript at 1. unfold setTranscripts.
    rewrite Hin. now destruct (addTranscript now update s).
  - intros E. unfold addTranscript, setTranscripts. rewrite E. now destruct s.
  - intros E. unfold addTranscript. simpl. rewrite E. eexists. split.
    + eapply Permutation_trans; [apply sort_Permutation|].
      apply Permutation_sym, Permutation_cons_append.
    + repeat split.
Qed.

Lemma addTranscript_once_witness :
  exists t,
    Permutation
      (transcripts (addTranscript 3000 (sampleUpdate 9 "nine" 90) fiveListed))
      (t :: transcripts fiveListed)
    /\ Transcript.text t = "nine"%string.
Proof.
  destruct (addTranscript_once 3000 3001 (sampleUpdate 9 "nine" 90) fiveListed)
    as [_ [_ H]].
  destruct (H eq_refl) as [t [Hp [Ht _]]].
  exists t. split; [exact Hp | exact Ht].
Defined.

(** ** More on the merge *)

Lemma strictly_before_irrefl a : ~ strictly_before a a.
Proof. unfold strictly_before, key_lt. lia. Qed.

Lemma strictly_before_asym a b : strictly_before a b -> ~ strictly_before b a.
Proof. unfold strictly_before, key_lt. lia. Qed.

(** A list in strict order is determined by its elements. *)
Lemma strictly_sorted_unique l l' :
  StronglySorted strictly_before l -> StronglySorted strictly_before l' ->
  Permutation l l' -> l = l'.
Proof.
  intros Hl. revert l'. induction Hl as [|a l Hs IH Ha]; intros l' Hl' Hp.
  - apply Permutation_nil in Hp. now subst.
  - destruct Hl' as [|a' l' Hs' Ha'].
    + apply Permutation_sym, Permutation_nil in Hp. discriminate.
    + assert (a = a') as ->.
      { assert (In a (a' :: l')) as Hin
          by (eapply Permutation_in; [exact Hp | now left]).
        assert (In a' (a :: l)) as Hin'
          by (eapply Permutation_in; [apply Permutation_sym, Hp | now left]).
        destruct Hin as [E|Hin]; [now subst|].
        destruct Hin' as [E|Hin']; [now subst|].
        rewrite Forall_forall in Ha, Ha'.
        exfalso. apply (strictly_before_asym a a'); auto. }
      f_equal. apply IH; [exact Hs'|].
      now apply Permutation_cons_inv in Hp.
Qed.

(** X14. The order of the fragments inside a batch does not matter: when
    the list holds no sequence id twice and none undefined, and the batch
    holds no sequence id twice, merging the batch or any rearrangement of
    it gives the same list. *)
Theorem merge_batch_order_irrelevant (batch batch' prev : list Transcript.t) :
  Permutation batch batch' ->
  NoDup (map Transcript.sequence_id prev) ->
  Forall (fun t => Transcript.sequence_id t <> None) prev ->
  NoDup (map Transcript.sequence_id batch) ->
  merge batch prev = merge batch' prev.
Proof.
  intros Hp Hprev Hdef Hbatch.
  assert (NoDup (map Transcript.sequence_id batch')) as Hbatch'
    by (eapply Permutation_NoDup; [apply Permutation_map, Hp | exact Hbatch]).
  assert (Permutation (filter (isNew (existingSequenceIds prev)) batch)
            (filter (isNew (existingSequenceIds prev)) batch')) as Hf.
  { clear - Hp. induction Hp; simpl.
    - constructor.
    - destruct (isNew _ x); [now constructor | assumption].
    - destruct (isNew _ x), (isNew _ y); try apply Permutation_refl.
      apply perm_swap.
    - eapply Permutation_trans; eassumption. }
  assert (Permutation (merge batch prev) (merge batch' prev)) as Hm.
  { eapply Permutation_trans; [apply merge_Permutation|].
    eapply Permutation_trans; [|apply Permutation_sym, merge_Permutation].
    now apply Permutation_app_head. }
  unfold merge in *.
  destruct (filter _ batch) as [|u us] eqn:E.
  - apply Permutation_nil in Hf. now rewrite Hf.
  - destruct (filter _ batch') as [|u' us'] eqn:E'.
    + apply Permutation_sym, Permutation_nil in Hf. discriminate.
    + apply strictly_sorted_unique; [| |exact Hm].
      * apply sorted_strict; [apply sorted_by_key | |].
        -- pose proof (merge_NoDup batch prev Hprev Hbatch) as H.
           unfold merge in H. now rewrite E in H.
        -- pose proof (merge_defined batch prev Hdef) as H.
           unfold merge in H. now rewrite E in H.
      * apply sorted_strict; [apply sorted_by_key | |].
        -- pose proof (merge_NoDup batch' prev Hprev Hbatch') as H.
           unfold merge in H. now rewrite E' in H.
        -- pose proof (merge_defined batch' prev Hdef) as H.
           unfold merge in H. now rewrite E' in H.
Qed.

Lemma merge_batch_order_irrelevant_witness :
  merge (JS.values (transcriptBuffer threeOneTwo)) []
  = merge (rev (JS.values (transcriptBuffer threeOneTwo))) [].
Proof.
  apply merge_batch_order_irrelevant.
  - apply Permutation_rev.
  - constructor.
  - constructor.
  - repeat constructor; simpl; intuition discriminate.
Defined.

(** X15. The merge never removes or changes an entry of the list: the
    merged list is made of the entries of the list and of the fragments of
    the batch that carry a sequence id the list does not hold yet; a
    fragment without sequence id, or with a listed one, is left out. *)
Theorem merge_keeps_list (batch prev : list Transcript.t) :
  Permutation (merge batch prev)
    (prev ++ filter (isNew (existingSequenceIds prev)) batch)
  /\ (forall t,
        In t (merge batch prev) <->
        In t prev
        \/ (In t batch
            /\ exists i, Transcript.sequence_id t = Some i
                         /\ ~ In (Some i) (map Transcript.sequence_id prev)))
  /\ (List.length prev <= List.length (merge batch prev)
      <= List.length prev + List.length batch)%nat.
Proof.
  pose proof (merge_Permutation batch prev) as Hp.
  split; [exact Hp|]. split.
  - intros t. split.
    + intros H. apply (Permutation_in _ Hp) in H.
      apply in_app_or in H as [H|H]; [now left|]. right.
      apply filter_In in H as [Hin Hnew]. split; [exact Hin|].
      apply isNew_true in Hnew as [i [Hi Hnot]]. exists i.
      split; [exact Hi|]. now rewrite <- existingSequenceIds_In.
    + intros H. apply (Permutation_in _ (Permutation_sym Hp)).
      apply in_or_app. destruct H as [H|[Hin [i [Hi Hnot]]]]; [now left|].
      right. apply filter_In. split; [exact Hin|].
      apply isNew_true. exists i. split; [exact Hi|].
      now rewrite existingSequenceIds_In.
  - apply Permutation_length in Hp. rewrite length_app in Hp.
    pose proof (filter_length_le (isNew (existingSequenceIds prev)) batch).
    lia.
Qed.

(** ** The listener state over the life of the provider *)

Lemma sequential_run_last turns acc buffer last acc' buffer' last' :
  sequential_run turns acc buffer last = (acc', buffer', last') ->
  last <= last'.
Proof.
  revert acc buffer last.
  induction turns as [|turns IH]; intros acc buffer last; simpl.
  - intros [= <- <- <-]. lia.
  - destruct (JS.get buffer (last + 1)).
    + intros H. apply IH in H. lia.
    + intros [= <- <- <-]. lia.
Qed.

Lemma listener_step s e :
  lastProcessedSequence s <= lastProcessedSequence (step s e)
  /\ transcriptCounter s <= transcriptCounter (step s e)
  /\ (BufferOk (transcriptBuffer s) -> BufferOk (transcriptBuffer (step s e))).
Proof.
  assert (forall forceFlush now,
             lastProcessedSequence s
             <= lastProcessedSequence
                  (processBufferedTranscripts forceFlush now s)
             /\ transcriptCounter s
                <= transcriptCounter
                     (processBufferedTranscripts forceFlush now s)
             /\ (BufferOk (transcriptBuffer s) ->
                 BufferOk (transcriptBuffer
                             (processBufferedTranscripts forceFlush now s))))
    as Hflush.
  { intros forceFlush now. split; [|split].
    - rewrite lastProcessedSequence_processBufferedTranscripts.
      destruct (sequential_run (List.length (transcriptBuffer s)) []
                  (transcriptBuffer s) (lastProcessedSequence s))
        as [[acc' rest] last'] eqn:Hrun.
      rewrite (flush_unfold _ _ _ _ _ _ _ Hrun). simpl.
      eapply sequential_run_last. exact Hrun.
    - unfold processBufferedTranscripts.
      destruct (allNewTranscripts _); simpl; [lia|].
      unfold sendChunk. simpl. destruct (truthy _); [|simpl; lia].
      destruct (summarySessionActiveRef s); simpl; lia.
    - apply BufferOk_processBufferedTranscripts. }
  destruct e as [[now update|now|now]| | | | | | | | | | | |]; simpl;
    try apply Hflush.
  - split; [|split]; [| |apply BufferOk_onTranscriptUpdate];
      unfold onTranscriptUpdate; destruct (JS.has _ _); simpl; lia.
  - unfold onRecordingStarted. destruct (summaryStartedRef s); simpl;
      (split; [lia | split; [lia | auto]]).
  - (split; [lia | split; [lia | auto]]).
  - (split; [lia | split; [lia | auto]]).
  - unfold startConfirmed. simpl. destruct (pendingChunksRef s); simpl;
      (split; [lia | split; [lia | auto]]).
  - (split; [lia | split; [lia | auto]]).
  - (split; [lia | split; [lia | auto]]).
  - (split; [lia | split; [lia | auto]]).
  - unfold onRecordingStopped. destruct (truthy _); simpl;
      (split; [lia | split; [lia | auto]]).
  - unfold endSettled. destruct ok; simpl; (split; [lia | split; [lia | auto]]).
  - (split; [lia | split; [lia | auto]]).
  - (split; [lia | split; [lia | auto]]).
  - (split; [lia | split; [lia | auto]]).
Qed.

(** X16. Whatever happens to the provider, the last processed sequence id
    and the fragment counter never go down (no handler resets them, a
    meeting switch included), and the buffer keeps its shape: each sequence
    id buffered once, each fragment under its own id. *)
Theorem listener_state_monotone (events : list ProviderEvent) (s : State) :
  lastProcessedSequence s <= lastProcessedSequence (runProvider events s)
  /\ transcriptCounter s <= transcriptCounter (runProvider events s)
  /\ (BufferOk (transcriptBuffer s) ->
      BufferOk (transcriptBuffer (runProvider events s))).
Proof.
  revert s. induction events as [|e events IH]; intros s; simpl.
  - (split; [lia | split; [lia | auto]]).
  - destruct (listener_step s e) as [H1 [H2 H3]].
    destruct (IH (step s e)) as [H1' [H2' H3']].
    split; [lia | split; [lia |]]. intros Hok. now apply H3', H3.
Qed.

Lemma listener_state_monotone_witness :
  BufferOk
    (transcriptBuffer
       (runProvider [Listener (Arrival 1000 (sampleUpdate 2 "b" 20));
                     ClearTranscripts; RecordingStarted 2000;
                     Listener (Arrival 2100 (sampleUpdate 1 "a" 10))]
          initial)).
Proof.
  destruct (listener_state_monotone
              [Listener (Arrival 1000 (sampleUpdate 2 "b" 20));
               ClearTranscripts; RecordingStarted 2000;
               Listener (Arrival 2100 (sampleUpdate 1 "a" 10))] initial)
    as [_ [_ H]].
  apply H, BufferOk_nil.
Defined.

(** ** [formatTime] *)

Lemma parseInt_toString n : 0 <= n -> JS.parseInt (JS.toString n) = Some n.
Proof.
  intros Hn. unfold JS.toString. destruct n as [|p|p]; [reflexivity| |lia].
  simpl Z.to_int. unfold NilZero.string_of_int, NilZero.string_of_uint.
  pose proof (Unsigned.to_uint_nonnil p) as Hnil.
  destruct (Pos.to_uint p) eqn:E; try contradiction; rewrite <- E in *;
    rewrite parseInt_string_of_uint by exact Hnil;
    unfold Z.of_uint; now rewrite Unsigned.of_to.
Qed.

(** A number written with one character is below ten. *)
Lemma toString_short n :
  0 <= n -> (String.length (JS.toString n) < 2)%nat -> n < 10.
Proof.
  intros Hn Hlen. pose proof (parseInt_toString n Hn) as Hparse.
  destruct (JS.toString n) as [|c [|c' r]]; simpl in Hlen; try lia.
  - discriminate Hparse.
  - clear Hlen.
    destruct c as [[] [] [] [] [] [] [] []]; vm_compute in Hparse;
      try discriminate; injection Hparse as <-; lia.
Qed.

Lemma twoDigits_below_100 n : 0 <= n < 100 -> twoDigits n = true.
Proof.
  intros Hn.
  assert (forallb twoDigits (map Z.of_nat (seq 0 100)) = true) as Hall
    by (vm_compute; reflexivity).
  rewrite forallb_forall in Hall. apply Hall.
  apply in_map_iff. exists (Z.to_nat n). split; [lia|]. apply in_seq. lia.
Qed.

Lemma padStart_parse n :
  0 <= n ->
  JS.parseInt (padStart 2 "0" (JS.toString n)) = Some n
  /\ (2 <= String.length (padStart 2 "0" (JS.toString n)))%nat.
Proof.
  intros Hn. destruct (Z.ltb_spec n 100) as [Hlt|Hge].
  - pose proof (twoDigits_below_100 n (conj Hn Hlt)) as H.
    unfold twoDigits in H. apply andb_true_iff in H as [Hlen Hp].
    apply Nat.eqb_eq in Hlen.
    destruct (JS.parseInt _) as [m|]; [|discriminate].
    apply Z.eqb_eq in Hp. subst. split; [reflexivity | lia].
  - assert (2 <= String.length (JS.toString n))%nat as Hlen.
    { destruct (Nat.ltb_spec (String.length (JS.toString n)) 2) as [H|H];
        [|exact H].
      apply toString_short in H; lia. }
    unfold padStart.
    replace (2 - String.length (JS.toString n))%nat with 0%nat by lia.
    simpl. split; [now apply parseInt_toString | exact Hlen].
Qed.

(** X17. The label [formatTime] gives a start time that is not negative
    and below [2 ^ 53] seconds (where the code's arithmetic on doubles is
    exact) can be read back: it is [[MM:SS]] where [SS] has two characters
    and reads as the whole seconds modulo 60, and [MM] has at least two
    characters, exactly two below 100 minutes, and reads as the whole
    minutes.  A missing start time gives [[--:--]]. *)
Theorem formatTime_reads_back (seconds : Q) :
  (0 <= seconds)%Q ->
  (seconds < inject_Z (2 ^ 53))%Q ->
  let totalSecs := Qfloor seconds in
  exists MM SS : string,
    formatTime (Some seconds) = ("[" ++ MM ++ ":" ++ SS ++ "]")%string
    /\ JS.parseInt MM = Some (totalSecs / 60)
    /\ JS.parseInt SS = Some (totalSecs mod 60)
    /\ String.length SS = 2%nat
    /\ (2 <= String.length MM)%nat
    /\ (totalSecs < 6000 -> String.length MM = 2%nat)
    /\ formatTime None = "[--:--]"%string.
Proof.
  intros Hpos _ totalSecs.
  assert (0 <= totalSecs) as Ht.
  { unfold totalSecs. change 0 with (Qfloor 0). now apply Qfloor_resp_le. }
  assert (Z.rem totalSecs 60 = totalSecs mod 60) as Hrem
    by (apply Z.rem_mod_nonneg; lia).
  assert (0 <= totalSecs mod 60 < 60) as Hs by (apply Z.mod_pos_bound; lia).
  assert (0 <= totalSecs / 60) as Hm by (apply Z.div_pos; lia).
  exists (padStart 2 "0" (JS.toString (totalSecs / 60))),
         (padStart 2 "0" (JS.toString (totalSecs mod 60))).
  destruct (padStart_parse _ Hm) as [Hpm Hlm].
  pose proof (twoDigits_below_100 (totalSecs mod 60)) as Hss.
  unfold twoDigits in Hss.
  destruct (padStart_parse (totalSecs mod 60)) as [Hps _]; [lia|].
  repeat split.
  - unfold formatTime. fold totalSecs. cbv zeta. now rewrite Hrem.
  - exact Hpm.
  - exact Hps.
  - assert (0 <= totalSecs mod 60 < 100) as Hr by lia.
    apply Hss, andb_true_iff in Hr as [Hr _]. now apply Nat.eqb_eq.
  - exact Hlm.
  - intros Hlt.
    assert (0 <= totalSecs / 60 < 100) as Hr.
    { split; [exact Hm|]. apply Z.div_lt_upper_bound; lia. }
    apply twoDigits_below_100 in Hr. unfold twoDigits in Hr.
    apply andb_true_iff in Hr as [Hr _]. now apply Nat.eqb_eq.
Qed.

Lemma formatTime_reads_back_witness :
  exists MM SS : string,
    formatTime (Some (7531 # 100)) = ("[" ++ MM ++ ":" ++ SS ++ "]")%string
    /\ JS.parseInt MM = Some 1
    /\ JS.parseInt SS = Some 15.
Proof.
  destruct (formatTime_reads_back (7531 # 100)) as [MM [SS [H1 [H2 [H3 _]]]]].
  - unfold Qle. simpl. lia.
  - reflexivity.
  - exists MM, SS. repeat split; assumption.
Defined.

(** ** The translation of the templates *)

Lemma translateTemplate_id t :
  Template.id (translateTemplate t) = Template.id t.
Proof.
  unfold translateTemplate.
  now destruct (translationOf _ _) as [[name description]|].
Qed.

Lemma translateTemplate_twice t :
  translateTemplate (translateTemplate t) = translateTemplate t.
Proof.
  unfold translateTemplate at 1. rewrite translateTemplate_id.
  unfold translateTemplate.
  now destruct (translationOf _ (Template.id t)) as [[name description]|] eqn:E;
    rewrite ?E.
Qed.

(** X18. Translating the templates served by the backend keeps their
    ids, hence their number and order; it is idempotent; a template whose
    id has no entry in the table is passed on as it is, and for an id of the
    table the name and the description shown are those of the table,
    whatever the backend sent. *)
Theorem translation_keeps_templates (templates : list Template.t) :
  forallb (fun t => isTemplateId (Template.id t)) templates = true ->
  map Template.id (translatedTemplates templates) = map Template.id templates
  /\ translatedTemplates (translatedTemplates templates)
     = translatedTemplates templates
  /\ (forall t,
        In t templates ->
        translationOf TEMPLATE_TRANSLATIONS (Template.id t) = None ->
        In t (translatedTemplates templates))
  /\ (forall t name description,
        translationOf TEMPLATE_TRANSLATIONS (Template.id t)
        = Some (name, description) ->
        translateTemplate t = Template.mk (Template.id t) name description).
Proof.
  intros _. unfold translatedTemplates. repeat split.
  - rewrite map_map. apply map_ext. apply translateTemplate_id.
  - rewrite map_map. apply map_ext. apply translateTemplate_twice.
  - intros t Hin Hnone. apply in_map_iff. exists t. split; [|exact Hin].
    unfold translateTemplate. now rewrite Hnone.
  - intros t name description H. unfold translateTemplate. now rewrite H.
Qed.

Lemma translation_keeps_templates_witness :
  map Template.id
    (translatedTemplates
       [Template.mk "daily_standup" "Daily Standup" "Yesterday, today, blockers";
        Template.mk "custom" "Custom" "A template of the user"])
  = ["daily_standup"; "custom"]%string.
Proof.
  destruct (translation_keeps_templates
              [Template.mk "daily_standup" "Daily Standup"
                 "Yesterday, today, blockers";
               Template.mk "custom" "Custom" "A template of the user"]
              eq_refl) as [H _].
  exact H.
Defined.

(** ** The summary panel *)

Lemma SectionCard_noBlocks title section type :
  Panel.noBlocks section = true <-> Panel.SectionCard title section type = None.
Proof.
  unfold Panel.noBlocks, Panel.SectionCard.
  destruct section as [s|]; [|tauto].
  destruct (Summary.blocks s); simpl; split; (reflexivity || discriminate).
Qed.

Lemma SectionCard_contents title section type card :
  Panel.SectionCard title section type = Some card ->
  Panel.title card = title /\ Panel.contents card <> []
  /\ Panel.noBlocks section = false.
Proof.
  unfold Panel.SectionCard, Panel.noBlocks.
  destruct section as [s|]; [|discriminate].
  destruct (Summary.blocks s); [discriminate|].
  intros [= <-]. simpl. repeat split. discriminate.
Qed.

(** X19. The summary panel never shows an empty frame.  Without a summary
    it shows the waiting text; with a summary whose six sections are all
    missing or without blocks it shows the generating text; otherwise it
    shows at least one card, every card shown has at least one line, and
    the cards come in the fixed order Action Items, Key Decisions, Next
    Steps, People, Deadlines, General Summary. *)
Theorem panel_never_blank (summary : option Panel.SummaryObject) :
  match Panel.IncrementalSummaryPanel summary with
  | Panel.Waiting => summary = None
  | Panel.Generating =>
      summary <> None
      /\ forall key, In key Panel.sectionKeys ->
                     Panel.noBlocks (Panel.getSection summary key) = true
  | Panel.Shown heading cards =>
      summary <> None
      /\ cards <> []
      /\ Forall (fun card => Panel.contents card <> []) cards
      /\ map Panel.title cards
         = filter (fun title =>
                     existsb (String.eqb title) (map Panel.title cards))
             Panel.cardTitles
  end.
Proof.
  destruct summary as [o|]; [|reflexivity].
  unfold Panel.IncrementalSummaryPanel. cbv zeta.
  set (a := Panel.getSection (Some o) "immediate_action_items").
  set (k := Panel.getSection (Some o) "key_items_decisions").
  set (n := Panel.getSection (Some o) "next_steps").
  set (p := Panel.getSection (Some o) "people").
  set (d := Panel.getSection (Some o) "critical_deadlines").
  set (g := Panel.getSection (Some o) "session_summary").
  destruct (Panel.SectionCard "Action Items" a Panel.action) as [ca|] eqn:Ea;
  destruct (Panel.SectionCard "Key Decisions" k Panel.bullet) as [ck|] eqn:Ek;
  destruct (Panel.SectionCard "Next Steps" n Panel.action) as [cn|] eqn:En;
  destruct (Panel.SectionCard "People" p Panel.bullet) as [cp|] eqn:Ep;
  destruct (Panel.SectionCard "Deadlines" d Panel.bullet) as [cd|] eqn:Ed;
  destruct (Panel.SectionCard "General Summary" g Panel.bullet) as [cg|] eqn:Eg;
  repeat match goal with
         | H : Panel.SectionCard _ _ _ = Some _ |- _ =>
             apply SectionCard_contents in H; destruct H as [? [? ?]]
         | H : Panel.SectionCard _ _ _ = None |- _ =>
             apply SectionCard_noBlocks in H
         end;
  repeat match goal with
         | H : Panel.noBlocks _ = _ |- _ => rewrite H
         end;
  simpl;
  repeat match goal with
         | H : Panel.title _ = _ |- _ => rewrite H
         end;
  simpl.
  all: try (split; [discriminate|]; split; [discriminate|];
            split; [repeat constructor; assumption | reflexivity]).
  split; [discriminate|].
  intros key Hkey. simpl in Hkey.
  repeat destruct Hkey as [<-|Hkey]; try contradiction; assumption.
Qed.

(** X20. A response serialised under the PascalCase aliases of the
    backend ([SessionSummary], [MeetingName], ...) is shown exactly like the
    same response under its field names: [getSection] finds each of the six
    sections under its alias. *)
Theorem panel_reads_aliases (r : Summary.SummaryResponse) :
  Panel.IncrementalSummaryPanel (Some (Panel.byAlias r))
  = Panel.IncrementalSummaryPanel (Some (Panel.byFieldName r))
  /\ forall key, In key Panel.sectionKeys ->
       Panel.getSection (Some (Panel.byAlias r)) key
       = Panel.getSection (Some (Panel.byFieldName r)) key
       /\ Panel.getSection (Some (Panel.byAlias r)) key <> None.
Proof.
  split.
  - reflexivity.
  - intros key Hkey. simpl in Hkey.
    repeat destruct Hkey as [<-|Hkey]; try contradiction;
      (split; [reflexivity | discriminate]).
Qed.

(** ** The check before generating a summary *)

(** X21. A click on the generate button starts the generation at most
    once, with the prompt of the panel, and exactly in these cases: the
    provider is [builtin-ai], a model is selected and it is ready; the
    provider is [ollama] and it lists at least one model; the provider is
    any other.  When the generation starts nothing is reported (no toast, no
    log, the settings stay closed); in every other case something is
    reported.  Whatever the backend answers, also when a call fails, the
    checking flag is off when the check is over. *)
Theorem generate_only_when_model_usable
    (isOllamaNotInstalledError : string -> bool)
    (config : Generator.ModelConfig) (customPrompt : string)
    (backend : Generator.Backend) (checking : bool) :
  let actions :=
    Generator.checkOllamaModelsAndGenerate isOllamaNotInstalledError
      config customPrompt backend in
  filter Generator.isGenerate actions
  = (if Generator.mayGenerate config backend
     then [Generator.onGenerateSummary customPrompt] else [])
  /\ existsb Generator.isComplaint actions
     = negb (Generator.mayGenerate config backend)
  /\ Generator.checkingAfter checking actions
     = (if String.eqb (Generator.provider config) "builtin-ai"
           || String.eqb (Generator.provider config) "ollama"
        then false else checking).
Proof.
  unfold Generator.checkOllamaModelsAndGenerate, Generator.mayGenerate,
    Generator.checkBuiltInAIModelsAndGenerate, Generator.checkBuiltIn.
  cbv zeta.
  destruct (String.eqb (Generator.provider config) "builtin-ai").
  - destruct (truthy (Generator.model config)); [|repeat split].
    destruct (Generator.isReady backend) as [[|]|]; [repeat split| |repeat split].
    destruct (Generator.modelInfo backend) as [[[]|]|]; repeat split.
  - destruct (String.eqb (Generator.provider config) "ollama"); simpl;
      [|repeat split].
    destruct (Generator.ollamaModels backend) as [[[|]|]|]; repeat split.
Qed.

(** ** The reload sync followed by live fragments *)

(** X22. After a reload the history fetched from the backend becomes the
    transcript list, each segment with its sequence id, its audio start
    time as chunk start time, and marked final.  The live flushes that
    follow keep every entry of the history and add a buffered fragment
    only if the history does not hold its sequence id: a fragment delivered
    again after the reload is not listed twice. *)
Theorem history_then_live_fragments
    (history : list Segment.t) (forceFlush : bool) (now : Z) (s : State) :
  let synced := syncFromBackend history s in
  let s' := processBufferedTranscripts forceFlush now synced in
  let batch := allNewTranscripts
                 (flush forceFlush now (transcriptBuffer s)
                    (lastProcessedSequence s)) in
  map Transcript.sequence_id (transcripts synced)
  = map Segment.sequence_id history
  /\ Forall (fun t => Transcript.is_partial t = false
                      /\ Transcript.chunk_start_time t
                         = Transcript.audio_start_time t)
       (transcripts synced)
  /\ (forall t, In t (transcripts synced) -> In t (transcripts s'))
  /\ (forall t, In t (transcripts s') ->
        In t (transcripts synced)
        \/ (In t batch
            /\ exists i, Transcript.sequence_id t = Some i
                         /\ ~ In (Some i) (map Segment.sequence_id history))).
Proof.
  intros synced s' batch.
  assert (map Transcript.sequence_id (transcripts synced)
          = map Segment.sequence_id history) as Hids.
  { unfold synced, syncFromBackend. simpl. now rewrite map_map. }
  assert (transcripts s' = merge batch (transcripts synced)) as Hs'.
  { unfold s'. now rewrite transcripts_processBufferedTranscripts. }
  split; [exact Hids|]. split; [|split].
  - unfold synced, syncFromBackend. simpl. rewrite Forall_forall.
    intros t Ht. apply in_map_iff in Ht as [segment [<- _]]. now split.
  - intros t Ht. rewrite Hs'.
    apply (Permutation_in _ (Permutation_sym (merge_Permutation _ _))).
    apply in_or_app. now left.
  - intros t Ht. rewrite Hs' in Ht.
    apply (Permutation_in _ (merge_Permutation _ _)) in Ht.
    apply in_app_or in Ht as [Ht|Ht]; [now left|]. right.
    apply filter_In in Ht as [Hin Hnew]. split; [exact Hin|].
    apply isNew_true in Hnew as [i [Hi Hnot]]. exists i.
    split; [exact Hi|]. now rewrite <- Hids, <- existingSequenceIds_In.
Qed.

(** ** Fragment ids are unique *)

Lemma hasDash_string_of_uint d : hasDash (NilEmpty.string_of_uint d) = false.
Proof. induction d; simpl; trivial. Qed.

Lemma hasDash_toString c : 0 <= c -> hasDash (JS.toString c) = false.
Proof.
  intros Hc. unfold JS.toString. destruct c as [|p|p]; [reflexivity| |lia].
  simpl Z.to_int. unfold NilZero.string_of_int, NilZero.string_of_uint.
  destruct (Pos.to_uint p) eqn:E; try reflexivity; rewrite <- E;
    apply hasDash_string_of_uint.
Qed.

Lemma hasDash_app a b : hasDash (a ++ b) = hasDash a || hasDash b.
Proof.
  induction a as [|c a IH]; simpl; [reflexivity|].
  now rewrite IH, orb_assoc.
Qed.

Lemma afterLastDash_app a s :
  hasDash s = false -> afterLastDash (a ++ String "-" s) = s.
Proof.
  intros Hs. induction a as [|c a IH]; simpl.
  - now rewrite Hs.
  - rewrite hasDash_app. simpl. rewrite orb_true_r. exact IH.
Qed.

Lemma counterOf_listener now c t :
  0 <= c ->
  Transcript.id t = (JS.toString now ++ "-" ++ JS.toString c)%string ->
  counterOf t = Some c.
Proof.
  intros Hc Hid. unfold counterOf. rewrite Hid.
  change ("-" ++ JS.toString c)%string with (String "-" (JS.toString c)).
  rewrite afterLastDash_app by now apply hasDash_toString.
  now apply parseInt_toString.
Qed.

Lemma NoDup_map_part {A B} (g : A -> B) (p : A -> bool) l1 l2 l3 :
  NoDup (map g (l1 ++ l2 ++ l3)) -> NoDup (map g (l1 ++ filter p l2 ++ l3)).
Proof.
  induction l1 as [|x l1 IH]; simpl.
  - induction l2 as [|y l2 IH2]; simpl; [trivial|].
    intros Hnd. inversion Hnd as [|? ? Hy Hnd']; subst.
    destruct (p y); simpl; [constructor|]; auto.
    intros Hin. apply Hy. apply in_map_iff in Hin as [z [Hz Hin]].
    apply in_map_iff. exists z. split; [exact Hz|].
    rewrite in_app_iff in *. rewrite filter_In in Hin. tauto.
  - intros Hnd. inversion Hnd as [|? ? Hx Hnd']; subst.
    constructor; [|auto].
    intros Hin. apply Hx. apply in_map_iff in Hin as [z [Hz Hin]].
    apply in_map_iff. exists z. split; [exact Hz|].
    rewrite !in_app_iff in *. rewrite filter_In in Hin. tauto.
Qed.

Lemma transcriptCounter_processBufferedTranscripts forceFlush now s :
  transcriptCounter (processBufferedTranscripts forceFlush now s)
  = transcriptCounter s.
Proof.
  unfold processBufferedTranscripts. destruct (allNewTranscripts _);
    [reflexivity|].
  unfold sendChunk. simpl. destruct (truthy _); [|reflexivity].
  destruct (summarySessionActiveRef s); reflexivity.
Qed.

Lemma fragments_processBufferedTranscripts forceFlush now s :
  BufferOk (transcriptBuffer s) ->
  let f := flush forceFlush now (transcriptBuffer s) (lastProcessedSequence s) in
  Permutation (fragments (processBufferedTranscripts forceFlush now s))
    (transcripts s
     ++ filter (isNew (existingSequenceIds (transcripts s)))
          (allNewTranscripts f)
     ++ JS.values (remaining f))
  /\ Permutation (fragments s)
       (transcripts s ++ allNewTranscripts f ++ JS.values (remaining f)).
Proof.
  intros Hok f. unfold fragments.
  rewrite transcripts_processBufferedTranscripts,
    transcriptBuffer_processBufferedTranscripts. fold f. split.
  - rewrite app_assoc. apply Permutation_app_tail, merge_Permutation.
  - apply Permutation_app_head, Permutation_sym.
    apply (flush_conservation forceFlush now _ _ (proj1 Hok)).
Qed.

Lemma CountersOk_processBufferedTranscripts forceFlush now s :
  CountersOk s -> CountersOk (processBufferedTranscripts forceFlush now s).
Proof.
  intros [Hc [Hok [Hnd Hall]]].
  destruct (fragments_processBufferedTranscripts forceFlush now s Hok)
    as [Hafter Hbefore].
  repeat split.
  - now rewrite transcriptCounter_processBufferedTranscripts.
  - apply BufferOk_processBufferedTranscripts, Hok.
  - apply BufferOk_processBufferedTranscripts, Hok.
  - eapply Permutation_NoDup;
      [apply Permutation_map, Permutation_sym, Hafter|].
    apply NoDup_map_part.
    eapply Permutation_NoDup; [apply Permutation_map, Hbefore | exact Hnd].
  - rewrite transcriptCounter_processBufferedTranscripts.
    eapply Permutation_Forall; [apply Permutation_sym, Hafter|].
    apply (Permutation_Forall Hbefore) in Hall.
    rewrite !Forall_app in *. destruct Hall as [H1 [H2 H3]].
    repeat split; try assumption.
    rewrite Forall_forall in *. intros t Ht. apply H2.
    now apply filter_In in Ht.
Qed.

Lemma fragments_onTranscriptUpdate now update s :
  JS.has (transcriptBuffer s) (TranscriptUpdate.sequence_id update) = false ->
  exists t,
    fragments (onTranscriptUpdate now update s) = fragments s ++ [t]
    /\ Transcript.id t
       = (JS.toString now ++ "-" ++ JS.toString (transcriptCounter s))%string
    /\ transcriptCounter (onTranscriptUpdate now update s)
       = transcriptCounter s + 1.
Proof.
  intros Hhas. unfold onTranscriptUpdate. rewrite Hhas.
  unfold fragments. simpl. unfold JS.set. rewrite Hhas.
  unfold JS.values. rewrite map_app. simpl. rewrite app_assoc.
  eexists. split; [reflexivity|]. split; reflexivity.
Qed.

Lemma CountersOk_onTranscriptUpdate now update s :
  CountersOk s -> CountersOk (onTranscriptUpdate now update s).
Proof.
  intros [Hc [Hok [Hnd Hall]]].
  pose proof (BufferOk_onTranscriptUpdate now update s Hok) as Hok'.
  destruct (JS.has (transcriptBuffer s) (TranscriptUpdate.sequence_id update))
    eqn:Hhas.
  - unfold onTranscriptUpdate. rewrite Hhas.
    split; [exact Hc | split; [exact Hok | split; [exact Hnd | exact Hall]]].
  - destruct (fragments_onTranscriptUpdate now update s Hhas)
      as [t [Hfr [Hid Hcount]]].
    assert (counterOf t = Some (transcriptCounter s)) as Ht
      by (apply (counterOf_listener now); assumption).
    unfold CountersOk. rewrite Hfr, Hcount.
    split; [lia|]. split; [exact Hok'|]. split.
    + rewrite map_app. simpl. apply NoDup_app; [exact Hnd | | ].
      * repeat constructor. intros [].
      * intros c Hin [<-|[]]. rewrite Ht in Hin.
        apply in_map_iff in Hin as [t' [Ht' Hin]].
        rewrite Forall_forall in Hall.
        destruct (Hall t' Hin) as [c' [Hc' Hlt]]. rewrite Hc' in Ht'.
        injection Ht' as ->. lia.
    + apply Forall_app. split.
      * eapply Forall_impl; [|exact Hall].
        intros t' [c [Hc' Hlt]]. exists c. split; [exact Hc' | lia].
      * repeat constructor. exists (transcriptCounter s).
        split; [exact Ht | lia].
Qed.

Lemma CountersOk_run events s : CountersOk s -> CountersOk (run events s).
Proof.
  revert s. induction events as [|e events IH]; intros s H; simpl.
  - exact H.
  - apply IH. destruct e as [now update|now|now]; simpl.
    + now apply CountersOk_onTranscriptUpdate.
    + now apply CountersOk_processBufferedTranscripts.
    + now apply CountersOk_processBufferedTranscripts.
Qed.

(** X23. The ids the listener gives the fragments are unique: whatever
    the arrivals and the flushes since the provider was mounted, at
    whatever clock values (also when two fragments arrive in the same
    millisecond), no two fragments held by the provider, listed or still
    buffered, have the same id; the counter read back from each id is below
    the current counter. *)
Theorem fragment_ids_unique (events : list ListenerEvent) :
  let s := run events initial in
  NoDup (map Transcript.id (fragments s))
  /\ Forall (fun t => exists c, counterOf t = Some c
                                /\ 0 <= c < transcriptCounter s)
       (fragments s).
Proof.
  intros s.
  assert (CountersOk initial) as H0.
  { unfold CountersOk, fragments. simpl.
    repeat split; try constructor; try lia. }
  apply (CountersOk_run events) in H0. fold s in H0.
  destruct H0 as [_ [_ [Hnd Hall]]]. split; [|exact Hall].
  unfold counterOf in Hnd.
  rewrite <- (map_map Transcript.id
                (fun i => JS.parseInt (afterLastDash i))) in Hnd.
  now apply NoDup_map_inv in Hnd.
Qed.

(** ** A flush that takes nothing *)

Lemma sequential_run_nothing turns acc buffer last acc' buffer' last' :
  sequential_run turns acc buffer last = (acc', buffer', last') ->
  acc' = acc -> buffer' = buffer /\ last' = last.
Proof.
  destruct turns as [|turns]; simpl.
  - intros [= <- <- <-]. auto.
  - destruct (JS.get buffer (last + 1)) as [t|] eqn:Hget.
    + intros Hrun Hacc. exfalso.
      assert (forall n a b l a' b' l',
                 sequential_run n a b l = (a', b', l') ->
                 (List.length a <= List.length a')%nat) as Hlen.
      { clear. induction n as [|n IH]; intros a b l a' b' l'; simpl.
        - intros [= <- <- <-]. lia.
        - destruct (JS.get b (l + 1)).
          + intros H. apply IH in H. rewrite length_app in H. simpl in H. lia.
          + intros [= <- <- <-]. lia. }
      apply Hlen in Hrun. rewrite Hacc, length_app in Hrun. simpl in Hrun. lia.
    + intros [= <- <- <-]. auto.
Qed.

Lemma sort_nil {A} (compareFn : A -> A -> Z) l :
  JS.sort compareFn l = [] -> l = [].
Proof.
  intros H. pose proof (sort_Permutation compareFn l) as Hp.
  rewrite H in Hp. now apply Permutation_nil in Hp.
Qed.

(** X24. A flush that finds nothing to take is silent: when its batch is
    empty (the buffer is empty, or the next sequence id is missing and the
    buffered fragments are stamped later than the clock), the state of the
    provider is exactly what it was; in particular the transcript list is
    not written and no chunk, not even an empty one, goes to the summary
    session. *)
Theorem empty_batch_changes_nothing
    (forceFlush : bool) (now : Z) (s : State) :
  allNewTranscripts
    (flush forceFlush now (transcriptBuffer s) (lastProcessedSequence s)) = [] ->
  processBufferedTranscripts forceFlush now s = s.
Proof.
  intros Hbatch. unfold processBufferedTranscripts. rewrite Hbatch.
  destruct (sequential_run (List.length (transcriptBuffer s)) []
              (transcriptBuffer s) (lastProcessedSequence s))
    as [[acc' rest] last'] eqn:Hrun.
  rewrite (flush_unfold _ _ _ _ _ _ _ Hrun) in *.
  unfold allNewTranscripts, sortTranscripts in Hbatch. simpl in Hbatch.
  apply app_eq_nil in Hbatch as [Hacc Hbatch].
  apply app_eq_nil in Hbatch as [Hrecent Hbatch].
  apply app_eq_nil in Hbatch as [Hstale Hforced].
  apply sort_nil in Hrecent, Hstale, Hforced.
  destruct (sequential_run_nothing _ _ _ _ _ _ _ Hrun Hacc) as [-> ->].
  simpl.
  assert (filter (fun e => negb (deletedBy forceFlush now (transcriptBuffer s) e))
            (transcriptBuffer s) = transcriptBuffer s) as Hrem.
  { apply forallb_filter_id, forallb_forall. intros e _.
    apply negb_true_iff, not_true_iff_false. unfold deletedBy.
    rewrite existsb_exists. intros [e' [He' H]].
    apply andb_true_iff in H as [_ Htaken].
    assert (In (snd e') (JS.values (transcriptBuffer s))) as Hin
      by now apply in_map.
    unfold isTaken in Htaken. destruct forceFlush; simpl in *.
    - rewrite Hforced in Hin. contradiction.
    - apply orb_true_iff in Htaken as [Ht|Ht].
      + assert (In (snd e') (filter (isStale now)
                               (JS.values (transcriptBuffer s)))) as H
          by (apply filter_In; now split).
        rewrite Hstale in H. contradiction.
      + assert (In (snd e') (filter (isRecent now)
                               (JS.values (transcriptBuffer s)))) as H
          by (apply filter_In; now split).
        rewrite Hrecent in H. contradiction. }
  rewrite Hrem. now destruct s.
Qed.

Lemma empty_batch_changes_nothing_witness :
  processBufferedTranscripts false 999 onlyFive = onlyFive.
Proof.
  apply (empty_batch_changes_nothing false 999 onlyFive). reflexivity.
Defined.
